(** * Expense tracker (web/app/page.tsx): view-model and persistence

    A shallow embedding of the [Home] component of [web/app/page.tsx]:
    the record collection with its add and remove handlers, the derived
    views computed by [useMemo] (filtered records, total, known months,
    category subtotals), the rows of the table, the categories the form
    offers and the two [localStorage] effects, together with
    the built-ins they call ([parseFloat], [toFixed], [Number::toString],
    [trim], [slice], [Array.prototype.sort], [Set], [Map],
    [JSON.stringify], [JSON.parse]).

    Modelling conventions.
    - A JavaScript string is the list of its UTF-16 code units ([list N]).
    - A JavaScript number is [NaN], an infinity, or a finite decimal
      [mant / 10^scale] kept in lowest terms.  Arithmetic on finite values
      is exact: the rounding and the overflow of binary64 are outside the
      model, and there is a single zero.  A decimal stands for the
      binary64 number nearest to it.  The properties of sums are stated
      with the [+] of the component and hold however [+] rounds; the
      property that fixes the hundredths of a stored amount carries the
      hypothesis under which a decimal and the binary64 number nearest to
      it round to the same hundredths.
    - A field declared [note?: string] is an [option]: a property that is
      missing and a property holding [undefined] are both [None].
    - An object is the list of its properties in order of creation (the
      reordering of array-index keys is not modelled).
    - Built-ins that can throw return [option]; [try { } catch { }] is the
      match on that option.
    - [Date.now()] and [Math.random()] are inputs of [addExpense]. *)

From Stdlib Require Import String Ascii List ZArith NArith QArith Bool Lia.
From Stdlib Require Import Sorting.Sorted Sorting.Permutation.
Import ListNotations.

Local Open Scope Z_scope.
Local Open Scope list_scope.
Local Open Scope bool_scope.

(* ================================================================== *)
(** * Part I. Definitions                                              *)
(* ================================================================== *)

(** ** Strings *)

Abbreviation jsstring := (list N).

(** A string literal of the source, as code units. *)
Fixpoint str (s : string) : jsstring :=
  match s with
  | EmptyString => []
  | String c s' => N_of_ascii c :: str s'
  end.

(** [a === b] on strings. *)
Fixpoint str_eqb (a b : jsstring) : bool :=
  match a, b with
  | [], [] => true
  | x :: a', y :: b' => (x =? y)%N && str_eqb a' b'
  | _, _ => false
  end.

(** [a < b] on strings: code-unit-wise lexicographic order. *)
Fixpoint str_ltb (a b : jsstring) : bool :=
  match a, b with
  | _, [] => false
  | [], _ :: _ => true
  | x :: a', y :: b' =>
      if (x <? y)%N then true
      else if (y <? x)%N then false
      else str_ltb a' b'
  end.

(** [s.slice(from, to)] for indices [0 <= from <= to]. *)
Definition slice {A : Type} (from to : nat) (s : list A) : list A :=
  firstn (to - from) (skipn from s).

(** WhiteSpace and LineTerminator code points, the set stripped by
    [String.prototype.trim] and skipped by [parseFloat]. *)
Definition is_whitespace (c : N) : bool :=
  ((9 <=? c) && (c <=? 13) || (c =? 32) || (c =? 160) || (c =? 5760)
   || (8192 <=? c) && (c <=? 8202) || (c =? 8232) || (c =? 8233)
   || (c =? 8239) || (c =? 8287) || (c =? 12288) || (c =? 65279))%N.

Fixpoint trim_start (s : jsstring) : jsstring :=
  match s with
  | [] => []
  | c :: s' => if is_whitespace c then trim_start s' else s
  end.

Definition trim_end (s : jsstring) : jsstring := rev (trim_start (rev s)).

Definition trim (s : jsstring) : jsstring := trim_end (trim_start s).

(** Truthiness of a string: the empty string is falsy. *)
Definition truthy (s : jsstring) : bool :=
  match s with [] => false | _ :: _ => true end.

(** [o ?? d] *)
Definition nullish {A : Type} (o : option A) (d : A) : A :=
  match o with Some v => v | None => d end.

(** ** Numbers *)

(** The finite value [mant / 10^scale]. *)
Record decimal := Dec { mant : Z; scale : nat }.

Inductive number :=
| NaN
| Infinity (negative : bool)
| Fin (d : decimal).

Definition pow10 (k : nat) : Z := 10 ^ Z.of_nat k.

(** Lowest terms: drop the trailing zeros of the fraction. *)
Fixpoint normalize (m : Z) (k : nat) : decimal :=
  match k with
  | O => Dec m 0
  | S k' => if m mod 10 =? 0 then normalize (m / 10) k' else Dec m k
  end.

Definition normal (d : decimal) : bool :=
  match scale d with
  | O => true
  | S _ => negb (mant d mod 10 =? 0)
  end.

Definition dec_zero : decimal := Dec 0 0.

Definition dec_add (a b : decimal) : decimal :=
  normalize (mant a * pow10 (scale b) + mant b * pow10 (scale a))
            (scale a + scale b).

Definition dec_opp (a : decimal) : decimal := Dec (- mant a) (scale a).

Definition dec_compare (a b : decimal) : comparison :=
  mant a * pow10 (scale b) ?= mant b * pow10 (scale a).

(** The rational denoted by a decimal. *)
Definition dec_Q (d : decimal) : Q :=
  Qmake (mant d) (Z.to_pos (pow10 (scale d))).

Definition zero : number := Fin dec_zero.

(** [x + y]; on finite numbers the exact sum, where the component has the
    binary64 number nearest to it, or an infinity when that overflows. *)
Definition num_add (x y : number) : number :=
  match x, y with
  | NaN, _ | _, NaN => NaN
  | Infinity s, Infinity t => if Bool.eqb s t then Infinity s else NaN
  | Infinity s, Fin _ => Infinity s
  | Fin _, Infinity t => Infinity t
  | Fin a, Fin b => Fin (dec_add a b)
  end.

Definition num_neg (x : number) : number :=
  match x with
  | NaN => NaN
  | Infinity s => Infinity (negb s)
  | Fin a => Fin (dec_opp a)
  end.

(** [x - y] *)
Definition num_sub (x y : number) : number := num_add x (num_neg y).

(** The comparison behind [<], [<=], [>], [>=]: undefined on [NaN]. *)
Definition num_compare (x y : number) : option comparison :=
  match x, y with
  | NaN, _ | _, NaN => None
  | Infinity s, Infinity t =>
      Some (if Bool.eqb s t then Eq else if s then Lt else Gt)
  | Infinity s, Fin _ => Some (if s then Lt else Gt)
  | Fin _, Infinity t => Some (if t then Gt else Lt)
  | Fin a, Fin b => Some (dec_compare a b)
  end.

(** [x < y] *)
Definition num_ltb (x y : number) : bool :=
  match num_compare x y with Some Lt => true | _ => false end.

(** [x <= y] *)
Definition num_leb (x y : number) : bool :=
  match num_compare x y with Some Lt | Some Eq => true | _ => false end.

(** [x > y] *)
Definition num_gtb (x y : number) : bool := num_ltb y x.

(** [x >= y] *)
Definition num_geb (x y : number) : bool := num_leb y x.

(** [Number.isNaN(x)] *)
Definition Number_isNaN (x : number) : bool :=
  match x with NaN => true | _ => false end.

Definition is_finite (x : number) : bool :=
  match x with Fin _ => true | _ => false end.

(** ** Decimal digits *)

Definition is_digit (c : N) : bool := ((48 <=? c) && (c <=? 57))%N.

Definition digit_value (c : N) : Z := Z.of_N c - 48.

Definition digit_code (d : Z) : N := Z.to_N (d + 48).

(** The value of a run of digits, most significant first. *)
Definition digits_value (ds : jsstring) : Z :=
  fold_left (fun acc c => acc * 10 + digit_value c) ds 0.

(** The longest run of decimal digits at the head of [s], and what follows. *)
Fixpoint span_digits (s : jsstring) : jsstring * jsstring :=
  match s with
  | [] => ([], [])
  | c :: s' =>
      if is_digit c
      then let (ds, rest) := span_digits s' in (c :: ds, rest)
      else ([], s)
  end.

Fixpoint to_digits_aux (fuel : nat) (n : Z) (acc : jsstring) : jsstring :=
  match fuel with
  | O => acc
  | S fuel' =>
      if n <? 10 then digit_code n :: acc
      else to_digits_aux fuel' (n / 10) (digit_code (n mod 10) :: acc)
  end.

(** The decimal digits of [n >= 0], without leading zeros (["0"] for 0). *)
Definition to_digits (n : Z) : jsstring :=
  to_digits_aux (S (Z.to_nat (Z.log2 n))) n [].

Definition zeros (k : nat) : jsstring := repeat 48%N k.

Fixpoint drop_zeros (s : jsstring) : jsstring :=
  match s with
  | [] => []
  | c :: s' => if (c =? 48)%N then drop_zeros s' else s
  end.

Definition strip_trailing_zeros (ds : jsstring) : jsstring :=
  rev (drop_zeros (rev ds)).

(** ** Numeric literals *)

(** The value [I.F x 10^e] of an integer part, a fraction part and an
    exponent. *)
Definition decimal_of_parts (int_digits frac_digits : jsstring) (e : Z)
  : decimal :=
  let m := digits_value (int_digits ++ frac_digits) in
  let q := e - Z.of_nat (length frac_digits) in
  if 0 <=? q then Dec (m * 10 ^ q) 0 else normalize m (Z.to_nat (- q)).

(** ExponentPart: [e] or [E], an optional sign, at least one digit. *)
Definition scan_exponent (s : jsstring) : option (Z * jsstring) :=
  match s with
  | [] => None
  | c :: s1 =>
      if ((c =? 101) || (c =? 69))%N then
        let '(negative, s2) :=
          match s1 with
          | [] => (false, s1)
          | d :: r =>
              if (d =? 45)%N then (true, r)
              else if (d =? 43)%N then (false, r)
              else (false, s1)
          end in
        match span_digits s2 with
        | ([], _) => None
        | (ds, rest) =>
            Some (if negative then - digits_value ds else digits_value ds, rest)
        end
      else None
  end.

(** An optional [.] followed by a run of digits (possibly empty). *)
Definition scan_fraction (s : jsstring) : bool * jsstring * jsstring :=
  match s with
  | [] => (false, [], s)
  | c :: r =>
      if (c =? 46)%N
      then let (ds, rest) := span_digits r in (true, ds, rest)
      else (false, [], s)
  end.

Definition starts_with (prefix s : jsstring) : bool :=
  str_eqb (firstn (length prefix) s) prefix.

(** The digits before the point, whether a point was read, the digits
    after it, the exponent if a well-formed one follows, and the rest. *)
Definition scan_literal (s : jsstring)
  : jsstring * bool * jsstring * option Z * jsstring :=
  let (int_digits, s1) := span_digits s in
  let '(dot, frac_digits, s2) := scan_fraction s1 in
  match scan_exponent s2 with
  | Some (e, s3) => (int_digits, dot, frac_digits, Some e, s3)
  | None => (int_digits, dot, frac_digits, None, s2)
  end.

(** The number denoted by the longest prefix of [s] that is a
    StrUnsignedDecimalLiteral; [NaN] when there is none. *)
Definition parse_unsigned (s : jsstring) : number :=
  if starts_with (str "Infinity") s then Infinity false
  else
    let '(int_digits, _, frac_digits, e, _) := scan_literal s in
    match int_digits, frac_digits with
    | [], [] => NaN
    | _, _ => Fin (decimal_of_parts int_digits frac_digits (nullish e 0))
    end.

(** [parseFloat(s)]; for a literal its exact value, where the component
    has the binary64 number nearest to it. *)
Definition parseFloat (s : jsstring) : number :=
  match trim_start s with
  | [] => NaN
  | c :: r =>
      if (c =? 45)%N then num_neg (parse_unsigned r)
      else if (c =? 43)%N then parse_unsigned r
      else parse_unsigned (c :: r)
  end.

(** [Number::toString(x)] in radix 10: with [s] the [k] significant digits
    and [n] the position of the decimal point, plain notation for
    [-6 < n <= 21] and exponent notation otherwise. *)
Definition Number_toString (x : number) : jsstring :=
  match x with
  | NaN => str "NaN"
  | Infinity negative => if negative then str "-Infinity" else str "Infinity"
  | Fin d =>
      if mant d =? 0 then str "0"
      else
        let sign := if mant d <? 0 then str "-" else [] in
        let digs := to_digits (Z.abs (mant d)) in
        let s := strip_trailing_zeros digs in
        let k := Z.of_nat (length s) in
        let n := Z.of_nat (length digs) - Z.of_nat (scale d) in
        sign ++
        (if (k <=? n) && (n <=? 21) then s ++ zeros (Z.to_nat (n - k))
         else if (0 <? n) && (n <=? 21) then
           firstn (Z.to_nat n) s ++ str "." ++ skipn (Z.to_nat n) s
         else if (-6 <? n) && (n <=? 0) then
           str "0." ++ zeros (Z.to_nat (- n)) ++ s
         else
           let e := n - 1 in
           let exponent :=
             str "e" ++ (if 0 <=? e then str "+" else str "-")
                     ++ to_digits (Z.abs e) in
           match s with
           | [] => exponent
           | [c] => c :: exponent
           | c :: rest => c :: str "." ++ rest ++ exponent
           end)
  end.

(** The integer nearest to [x * 10^f] for [x >= 0], the larger one on a
    tie. *)
Definition round_scaled (a : decimal) (f : nat) : Z :=
  (2 * mant a * pow10 f + pow10 (scale a)) / (2 * pow10 (scale a)).

(** [x.toFixed(f)]; [x] is rounded as the decimal it is. *)
Definition toFixed (x : number) (f : nat) : jsstring :=
  match x with
  | NaN | Infinity _ => Number_toString x
  | Fin d =>
      let sign := if mant d <? 0 then str "-" else [] in
      let a := Dec (Z.abs (mant d)) (scale d) in
      let m :=
        if 10 ^ 21 * pow10 (scale a) <=? mant a then Number_toString (Fin a)
        else
          let n := round_scaled a f in
          let m := if n =? 0 then str "0" else to_digits n in
          match f with
          | O => m
          | S _ =>
              let m := if (length m <=? f)%nat
                       then zeros (f + 1 - length m) ++ m else m in
              let k := length m in
              firstn (k - f) m ++ str "." ++ skipn (k - f) m
          end in
      sign ++ m
  end.

(** ** Arrays, Set and Map *)

Section ArraySort.
Context {A : Type}.
(** The comparator handed to [Array.prototype.sort]. *)
Variable comparefn : A -> A -> number.

(** [comparefn(x, y) > 0]: [x] belongs after [y].  A [NaN] result counts
    as [+0] (SortCompare), which this test already treats as "no". *)
Definition sorts_after (x y : A) : bool := num_gtb (comparefn x y) zero.

Fixpoint sort_insert (x : A) (l : list A) : list A :=
  match l with
  | [] => [x]
  | y :: l' => if sorts_after x y then y :: sort_insert x l' else x :: l
  end.

(** [arr.sort(comparefn)]: the sort is stable, so for a consistent
    comparator its result is the one computed here. *)
Definition Array_sort (l : list A) : list A := fold_right sort_insert [] l.
End ArraySort.

(** The comparator [arr.sort()] uses on strings when none is given. *)
Definition default_compare (x y : jsstring) : number :=
  if str_ltb x y then Fin (Dec (-1) 0)
  else if str_ltb y x then Fin (Dec 1 0)
  else zero.

(** [new Set(values)]: the distinct values in order of first insertion. *)
Definition Set_add (s : list jsstring) (v : jsstring) : list jsstring :=
  if existsb (str_eqb v) s then s else s ++ [v].

Definition new_Set (values : list jsstring) : list jsstring :=
  fold_left Set_add values [].

(** [Map<string, number>]: entries in order of first insertion. *)
Definition JSMap := list (jsstring * number).

Fixpoint Map_get (m : JSMap) (k : jsstring) : option number :=
  match m with
  | [] => None
  | (k', v) :: m' => if str_eqb k' k then Some v else Map_get m' k
  end.

Fixpoint Map_set (m : JSMap) (k : jsstring) (v : number) : JSMap :=
  match m with
  | [] => [(k, v)]
  | (k', v') :: m' =>
      if str_eqb k' k then (k', v) :: m' else (k', v') :: Map_set m' k v
  end.

(** ** The record type *)

Module Expense.
Record t := mk {
  id : jsstring;
  date : jsstring;
  category : jsstring;
  amount : number;
  note : option jsstring
}.
End Expense.

Definition Expense := Expense.t.

(** ** Derived views *)

Definition month_of (e : Expense) : jsstring := slice 0 7 (Expense.date e).

Definition filteredExpenses (expenses : list Expense) (filterMonth : jsstring)
  : list Expense :=
  if str_eqb filterMonth (str "all") then expenses
  else filter (fun e => str_eqb (month_of e) filterMonth) expenses.

Definition total (filtered : list Expense) : number :=
  fold_left (fun sum e => num_add sum (Expense.amount e)) filtered zero.

Definition months (expenses : list Expense) : list jsstring :=
  rev (Array_sort default_compare (new_Set (map month_of expenses))).

Record CategoryTotal := { cat : jsstring; amt : number }.

Definition accumulate (totals : JSMap) (e : Expense) : JSMap :=
  Map_set totals (Expense.category e)
    (num_add (nullish (Map_get totals (Expense.category e)) zero)
             (Expense.amount e)).

Definition categoryTotals (filtered : list Expense) : list CategoryTotal :=
  let totals := fold_left accumulate filtered [] in
  Array_sort (fun a b => num_sub (amt b) (amt a))
    (map (fun '(c, a) => {| cat := c; amt := a |}) totals).

(** ** removeExpense *)

Definition removeExpense (prev : list Expense) (id : jsstring) : list Expense :=
  filter (fun e => negb (str_eqb (Expense.id e) id)) prev.

(** ** The component state and addExpense *)

Module Home.
Record state := mk {
  expenses : list Expense;
  amount : jsstring;
  category : jsstring;
  date : jsstring;
  note : jsstring;
  filterMonth : jsstring
}.
End Home.

(** [a || b] on strings. *)
Definition or_else (a b : jsstring) : jsstring := if truthy a then a else b.

(** [a || undefined] *)
Definition or_undefined (a : jsstring) : option jsstring :=
  if truthy a then Some a else None.

(** The record built by [addExpense].  [now] is the value of [Date.now()]
    and [random36] the string [Math.random().toString(36)]. *)
Definition newExpense (now : Z) (random36 : jsstring) (parsedAmount : number)
    (s : Home.state) : Expense :=
  {| Expense.id :=
       Number_toString (Fin (Dec now 0)) ++ str "-" ++ slice 2 8 random36;
     Expense.date := Home.date s;
     Expense.category := or_else (trim (Home.category s)) (str "Other");
     Expense.amount := parseFloat (toFixed parsedAmount 2);
     Expense.note := or_undefined (trim (Home.note s)) |}.

Definition addExpense (now : Z) (random36 : jsstring) (s : Home.state)
  : Home.state :=
  let parsedAmount := parseFloat (Home.amount s) in
  if Number_isNaN parsedAmount || num_leb parsedAmount zero then s
  else if negb (truthy (Home.date s)) then s
  else
    {| Home.expenses :=
         newExpense now random36 parsedAmount s :: Home.expenses s;
       Home.amount := [];
       Home.category := Home.category s;
       Home.date := Home.date s;
       Home.note := [];
       Home.filterMonth := Home.filterMonth s |}.

(** ** The form and the table *)

(** The categories the form offers. *)
Definition DEFAULT_CATEGORIES : list jsstring :=
  [ str "Food"; str "Transport"; str "Housing"; str "Utilities";
    str "Health"; str "Entertainment"; str "Shopping"; str "Travel";
    str "Other" ].

(** The comparator of the table, [(a, b) => (a.date < b.date ? 1 : -1)].
    It never answers [0], so for two records of the same date it is not a
    consistent comparator and the order of such records is left to the
    engine. *)
Definition by_date (a b : Expense) : number :=
  if str_ltb (Expense.date a) (Expense.date b)
  then Fin (Dec 1 0) else Fin (Dec (-1) 0).

(** The rows of the table, [filteredExpenses.slice().sort(...)]; the copy
    made by [slice()] holds the same records in the same order. *)
Definition rows (filtered : list Expense) : list Expense :=
  Array_sort by_date filtered.

(** ** JSON values *)

Unset Elimination Schemes.
Inductive json :=
| JNull
| JBool (b : bool)
| JNumber (n : number)
| JString (s : jsstring)
| JArray (items : list json)
| JObject (members : list (jsstring * json)).
Set Elimination Schemes.

(** Defining a property: an existing key keeps its place and takes the new
    value, a new key goes last. *)
Fixpoint obj_set (members : list (jsstring * json)) (k : jsstring) (v : json)
  : list (jsstring * json) :=
  match members with
  | [] => [(k, v)]
  | (k', v') :: rest =>
      if str_eqb k' k then (k', v) :: rest else (k', v') :: obj_set rest k v
  end.

(** Reading a property; [None] is [undefined]. *)
Fixpoint obj_get (members : list (jsstring * json)) (k : jsstring)
  : option json :=
  match members with
  | [] => None
  | (k', v) :: rest => if str_eqb k' k then Some v else obj_get rest k
  end.

(** ** JSON.stringify *)

Definition hex_digit (n : N) : N :=
  if (n <? 10)%N then (48 + n)%N else (87 + n)%N.

(** The escape [\uXXXX] of a code unit, in lower-case hexadecimal. *)
Definition unicode_escape (c : N) : jsstring :=
  [ 92; 117; hex_digit (c / 4096 mod 16); hex_digit (c / 256 mod 16);
    hex_digit (c / 16 mod 16); hex_digit (c mod 16) ]%N.

Definition is_leading_surrogate (c : N) : bool :=
  ((55296 <=? c) && (c <=? 56319))%N.

Definition is_trailing_surrogate (c : N) : bool :=
  ((56320 <=? c) && (c <=? 57343))%N.

(** One code unit inside a quoted string (QuoteJSONString). *)
Definition escape_char (c : N) : jsstring :=
  (if c =? 8 then [92; 98]
   else if c =? 9 then [92; 116]
   else if c =? 10 then [92; 110]
   else if c =? 12 then [92; 102]
   else if c =? 13 then [92; 114]
   else if c =? 34 then [92; 34]
   else if c =? 92 then [92; 92]
   else if c <? 32 then unicode_escape c
   else if is_leading_surrogate c || is_trailing_surrogate c
        then unicode_escape c
   else [c])%N.

(** A surrogate pair is written as it is; a lone surrogate is escaped. *)
Fixpoint quote_chars (s : jsstring) : jsstring :=
  match s with
  | [] => []
  | c :: s' =>
      match s' with
      | [] => escape_char c
      | c2 :: s'' =>
          if is_leading_surrogate c && is_trailing_surrogate c2
          then c :: c2 :: quote_chars s''
          else escape_char c ++ quote_chars s'
      end
  end.

Definition QuoteJSONString (s : jsstring) : jsstring :=
  34%N :: quote_chars s ++ [34%N].

Fixpoint join_comma (parts : list jsstring) : jsstring :=
  match parts with
  | [] => []
  | [p] => p
  | p :: ps => p ++ 44%N :: join_comma ps
  end.

(** [JSON.stringify(v)]: no white space; a number that is not finite is
    written [null]. *)
Fixpoint JSON_stringify (v : json) : jsstring :=
  match v with
  | JNull => str "null"
  | JBool b => if b then str "true" else str "false"
  | JNumber n => if is_finite n then Number_toString n else str "null"
  | JString s => QuoteJSONString s
  | JArray items => 91%N :: join_comma (map JSON_stringify items) ++ [93%N]
  | JObject members =>
      123%N
      :: join_comma
           (map (fun m => QuoteJSONString (fst m) ++ 58%N
                          :: JSON_stringify (snd m)) members)
      ++ [125%N]
  end.

(** ** JSON.parse *)

Definition is_json_ws (c : N) : bool :=
  ((c =? 32) || (c =? 9) || (c =? 10) || (c =? 13))%N.

Fixpoint skip_ws (s : jsstring) : jsstring :=
  match s with
  | [] => []
  | c :: s' => if is_json_ws c then skip_ws s' else s
  end.

Definition hex_value (c : N) : option N :=
  if ((48 <=? c) && (c <=? 57))%N then Some (c - 48)%N
  else if ((97 <=? c) && (c <=? 102))%N then Some (c - 87)%N
  else if ((65 <=? c) && (c <=? 70))%N then Some (c - 55)%N
  else None.

Definition hex4 (a b c d : N) : option N :=
  match hex_value a, hex_value b, hex_value c, hex_value d with
  | Some x, Some y, Some z, Some w => Some (x * 4096 + y * 256 + z * 16 + w)%N
  | _, _, _, _ => None
  end.

(** The character named by a one-letter escape. *)
Definition simple_escape (c : N) : option N :=
  (if c =? 34 then Some 34
   else if c =? 92 then Some 92
   else if c =? 47 then Some 47
   else if c =? 98 then Some 8
   else if c =? 102 then Some 12
   else if c =? 110 then Some 10
   else if c =? 114 then Some 13
   else if c =? 116 then Some 9
   else None)%N.

Definition prepend (c : N) (r : option (jsstring * jsstring))
  : option (jsstring * jsstring) :=
  match r with
  | Some (s, rest) => Some (c :: s, rest)
  | None => None
  end.

(** The characters of a string up to its closing quote, and what follows
    the quote. *)
Fixpoint parse_chars (s : jsstring) : option (jsstring * jsstring) :=
  match s with
  | [] => None
  | c :: r =>
      if (c =? 34)%N then Some ([], r)
      else if (c =? 92)%N then
        match r with
        | [] => None
        | e :: r1 =>
            if (e =? 117)%N then
              match r1 with
              | h1 :: h2 :: h3 :: h4 :: r2 =>
                  match hex4 h1 h2 h3 h4 with
                  | Some u => prepend u (parse_chars r2)
                  | None => None
                  end
              | _ => None
              end
            else
              match simple_escape e with
              | Some u => prepend u (parse_chars r1)
              | None => None
              end
        end
      else if (c <? 32)%N then None
      else prepend c (parse_chars r)
  end.

(** An integer part is [0] or starts with a non-zero digit. *)
Definition valid_int (ip : jsstring) : bool :=
  match ip with
  | [] => false
  | c :: r => negb (c =? 48)%N || match r with [] => true | _ => false end
  end.

Definition parse_number (s : jsstring) : option (number * jsstring) :=
  let (negative, s0) :=
    match s with
    | [] => (false, s)
    | c :: r => if (c =? 45)%N then (true, r) else (false, s)
    end in
  let '(ip, dot, fp, e, rest) := scan_literal s0 in
  if valid_int ip && (negb dot || truthy fp) then
    let d := decimal_of_parts ip fp (nullish e 0) in
    Some (Fin (if negative then dec_opp d else d), rest)
  else None.

Inductive parsed :=
| Parsed (v : json) (rest : jsstring)
| SyntaxError
| OutOfFuel.

Definition keyword (word : string) (v : json) (s : jsstring) : parsed :=
  if starts_with (str word) s
  then Parsed v (skipn (String.length word) s)
  else SyntaxError.

Fixpoint parse_value (fuel : nat) (s : jsstring) {struct fuel} : parsed :=
  match fuel with
  | O => OutOfFuel
  | S fuel' =>
      match skip_ws s with
      | [] => SyntaxError
      | c :: r =>
          if (c =? 34)%N then
            match parse_chars r with
            | Some (text, rest) => Parsed (JString text) rest
            | None => SyntaxError
            end
          else if (c =? 91)%N then
            match skip_ws r with
            | [] => SyntaxError
            | c' :: r' =>
                if (c' =? 93)%N then Parsed (JArray []) r'
                else parse_items fuel' r []
            end
          else if (c =? 123)%N then
            match skip_ws r with
            | [] => SyntaxError
            | c' :: r' =>
                if (c' =? 125)%N then Parsed (JObject []) r'
                else parse_members fuel' r []
            end
          else if (c =? 116)%N then keyword "true" (JBool true) (c :: r)
          else if (c =? 102)%N then keyword "false" (JBool false) (c :: r)
          else if (c =? 110)%N then keyword "null" JNull (c :: r)
          else
            match parse_number (c :: r) with
            | Some (n, rest) => Parsed (JNumber n) rest
            | None => SyntaxError
            end
      end
  end

with parse_items (fuel : nat) (s : jsstring) (acc : list json) {struct fuel}
  : parsed :=
  match fuel with
  | O => OutOfFuel
  | S fuel' =>
      match parse_value fuel' s with
      | Parsed v rest =>
          match skip_ws rest with
          | [] => SyntaxError
          | c :: r =>
              if (c =? 44)%N then parse_items fuel' r (acc ++ [v])
              else if (c =? 93)%N then Parsed (JArray (acc ++ [v])) r
              else SyntaxError
          end
      | failure => failure
      end
  end

with parse_members (fuel : nat) (s : jsstring) (acc : list (jsstring * json))
       {struct fuel} : parsed :=
  match fuel with
  | O => OutOfFuel
  | S fuel' =>
      match skip_ws s with
      | [] => SyntaxError
      | q :: r =>
          if (q =? 34)%N then
            match parse_chars r with
            | None => SyntaxError
            | Some (key, rest) =>
                match skip_ws rest with
                | [] => SyntaxError
                | c :: r' =>
                    if (c =? 58)%N then
                      match parse_value fuel' r' with
                      | Parsed v rest' =>
                          match skip_ws rest' with
                          | [] => SyntaxError
                          | c' :: r'' =>
                              if (c' =? 44)%N
                              then parse_members fuel' r'' (obj_set acc key v)
                              else if (c' =? 125)%N
                              then Parsed (JObject (obj_set acc key v)) r''
                              else SyntaxError
                          end
                      | failure => failure
                      end
                    else SyntaxError
                end
            end
          else SyntaxError
      end
  end.

(** [JSON.parse(text)]; [None] when it throws a SyntaxError.  The fuel is
    enough for any text of this length. *)
Definition JSON_parse (text : jsstring) : option json :=
  match parse_value (2 * length text + 2) text with
  | Parsed v rest =>
      match skip_ws rest with
      | [] => Some v
      | _ :: _ => None
      end
  | SyntaxError | OutOfFuel => None
  end.

(** ** localStorage and the two effects *)

(** The storage area as the page sees it: access denied altogether, or a
    slot for [STORAGE_KEY] with an optional quota on the length of the
    value. *)
Inductive storage :=
| Blocked
| Store (quota : option nat) (slot : option jsstring).

(** [localStorage.getItem(STORAGE_KEY)]; the outer [None] is a throw, the
    inner one is [null]. *)
Definition getItem (st : storage) : option (option jsstring) :=
  match st with
  | Blocked => None
  | Store _ slot => Some slot
  end.

(** [localStorage.setItem(STORAGE_KEY, value)]; [None] is a throw. *)
Definition setItem (st : storage) (value : jsstring) : option storage :=
  match st with
  | Blocked => None
  | Store quota _ =>
      match quota with
      | Some q => if (length value <=? q)%nat
                  then Some (Store quota (Some value)) else None
      | None => Some (Store quota (Some value))
      end
  end.

(** The value of a record as [JSON.stringify] sees it: a property holding
    [undefined] is left out. *)
Definition to_json (e : Expense) : json :=
  JObject
    ([ (str "id", JString (Expense.id e));
       (str "date", JString (Expense.date e));
       (str "category", JString (Expense.category e));
       (str "amount", JNumber (Expense.amount e)) ]
     ++ match Expense.note e with
        | Some n => [(str "note", JString n)]
        | None => []
        end).

(** The persist effect: [localStorage.setItem(STORAGE_KEY,
    JSON.stringify(expenses))], a throw being ignored. *)
Definition save (st : storage) (expenses : list Expense) : storage :=
  match setItem st (JSON_stringify (JArray (map to_json expenses))) with
  | Some st' => st'
  | None => st
  end.

(** The load effect, run on the initial state [[]]: the array handed to
    [setExpenses], or the initial state when [setExpenses] is not reached.
    The cast [as Expense[]] checks nothing, so the elements are whatever
    values the text holds. *)
Definition load (st : storage) : list json :=
  match getItem st with
  | None => []
  | Some None => []
  | Some (Some raw) =>
      if truthy raw then
        match JSON_parse raw with
        | None => []
        | Some (JArray parsed) => parsed
        | Some _ => []
        end
      else []
  end.

(** A value that has the shape declared by [type Expense]. *)
Definition as_Expense (v : json) : option Expense :=
  match v with
  | JObject members =>
      match obj_get members (str "id"), obj_get members (str "date"),
            obj_get members (str "category"), obj_get members (str "amount")
      with
      | Some (JString i), Some (JString d), Some (JString c),
        Some (JNumber a) =>
          match obj_get members (str "note") with
          | None => Some (Expense.mk i d c a None)
          | Some (JString n) => Some (Expense.mk i d c a (Some n))
          | Some _ => None
          end
      | _, _, _, _ => None
      end
  | _ => None
  end.

(** The loaded array read at its declared type [Expense[]]. *)
Fixpoint as_Expenses (l : list json) : option (list Expense) :=
  match l with
  | [] => Some []
  | v :: l' =>
      match as_Expense v, as_Expenses l' with
      | Some e, Some es => Some (e :: es)
      | _, _ => None
      end
  end.

(** ** Notions used in the statements *)

(** [keeps P l l']: [l'] consists of exactly the elements of [l] that
    satisfy [P], in the order they have in [l]. *)
Inductive keeps {A : Type} (P : A -> Prop) : list A -> list A -> Prop :=
| keeps_nil : keeps P [] []
| keeps_take x l l' : P x -> keeps P l l' -> keeps P (x :: l) (x :: l')
| keeps_drop x l l' : ~ P x -> keeps P l l' -> keeps P (x :: l) l'.

(** The sum [0 + a1 + ... + an], associated as [reduce] does. *)
Definition js_sum (l : list number) : number := fold_left num_add l zero.

(** The amounts of the records of category [c], in collection order. *)
Definition amounts_of (c : jsstring) (l : list Expense) : list number :=
  map Expense.amount (filter (fun e => str_eqb (Expense.category e) c) l).


(** The invariant of the data model: every amount is greater than zero. *)
Definition positive_amounts (l : list Expense) : Prop :=
  Forall (fun e => num_gtb (Expense.amount e) zero = true) l.

(** *** Numerals and literals *)

Abbreviation all_digits := (Forall (fun c => is_digit c = true)).

(** [canonical n ds]: [ds] is the decimal numeral of [n], without leading
    zeros. *)
Definition canonical (n : Z) (ds : jsstring) : Prop :=
  all_digits ds
  /\ digits_value ds = n
  /\ exists c r, ds = c :: r /\ (c = 48%N -> r = []).

(** What may follow a literal without being read as part of it. *)
Definition delimited (rest : jsstring) : Prop :=
  match rest with
  | [] => True
  | c :: _ => is_digit c = false /\ c <> 46%N /\ c <> 101%N /\ c <> 69%N
  end.

(** A fraction part, with its point; nothing when there are no digits. *)
Definition frac_text (fp : jsstring) : jsstring :=
  match fp with [] => [] | _ :: _ => 46%N :: fp end.

(** An exponent part, written with its sign as [Number::toString] does. *)
Definition exp_text (E : option Z) : jsstring :=
  match E with
  | None => []
  | Some e => 101%N :: (if 0 <=? e then 43%N else 45%N) :: to_digits (Z.abs e)
  end.

(** The text of an integer part, an optional fraction part and an optional
    exponent part. *)
Definition literal (ip fp : jsstring) (E : option Z) : jsstring :=
  ip ++ frac_text fp ++ exp_text E.

(** [denotes text m k]: [text] is a literal whose integer part is a
    numeral without leading zeros and whose value is [m / 10^k]. *)
Definition denotes (text : jsstring) (m : Z) (k : nat) : Prop :=
  exists ip fp E,
    text = literal ip fp E
    /\ all_digits ip
    /\ (exists c r, ip = c :: r /\ (c = 48%N -> r = []))
    /\ all_digits fp
    /\ decimal_of_parts ip fp (nullish E 0) = normalize m k.

(** *** Parsed amounts on which decimals and binary64 numbers agree *)

(** The numbers of the component are binary64 numbers; here they are
    exact decimals, a decimal literal standing for the binary64 number
    nearest to it.  Rounding to hundredths gives the same hundredths for
    both when the decimal is itself a binary64 number, and when it is far
    enough from a tie for the nearest binary64 number to be on the same
    side of the tie. *)



Abbreviation all_whitespace := (Forall (fun c => is_whitespace c = true)).

(** *** Values that JSON.stringify writes without loss *)

(** A finite number (in lowest terms, as every number the program
    computes is). *)
Definition wf_number (n : number) : bool :=
  match n with Fin d => normal d | _ => false end.

Fixpoint distinct (keys : list jsstring) : bool :=
  match keys with
  | [] => true
  | k :: ks => negb (existsb (str_eqb k) ks) && distinct ks
  end.

(** Numbers are finite and the keys of each object are distinct. *)
Fixpoint wf_json (v : json) : bool :=
  match v with
  | JNumber n => wf_number n
  | JArray items => forallb wf_json items
  | JObject members =>
      distinct (map fst members) && forallb (fun m => wf_json (snd m)) members
  | _ => true
  end.

(** Fuel that parsing the text of [v] takes. *)
Fixpoint cost (v : json) : nat :=
  match v with
  | JArray items => S (fold_right (fun x n => S (cost x + n)) 0%nat items)
  | JObject members =>
      S (fold_right (fun m n => S (cost (snd m) + n)) 0%nat members)
  | _ => 1%nat
  end.

(** The text of one member of an object. *)
Definition member_text (m : jsstring * json) : jsstring :=
  QuoteJSONString (fst m) ++ 58%N :: JSON_stringify (snd m).

(** The first character of the text of a value: never white space, never
    a closing bracket. *)
Definition opens_value (c : N) : Prop :=
  is_json_ws c = false /\ c <> 93%N /\ c <> 125%N.

(** What the text of a value followed by [rest] parses to, with enough
    fuel. *)
Definition reads_back (v : json) : Prop :=
  forall fuel rest,
    (cost v <= fuel)%nat -> delimited rest ->
    parse_value fuel (JSON_stringify v ++ rest) = Parsed v rest.

(** *** Strings, ties and stored values *)

(** A string that is not empty and has no white space at either end. *)
Definition tidy (s : jsstring) : bool :=
  match s with
  | [] => false
  | c :: _ => negb (is_whitespace c) && negb (is_whitespace (last s c))
  end.


(** Any number, a finite one being in lowest terms. *)
Definition storable (x : number) : bool :=
  match x with Fin d => normal d | _ => true end.

(** The value that comes back from the storage for a record: its amount
    is [null] when the number is not finite. *)
Definition stored (e : Expense) : json :=
  JObject
    ([ (str "id", JString (Expense.id e));
       (str "date", JString (Expense.date e));
       (str "category", JString (Expense.category e));
       (str "amount", if is_finite (Expense.amount e)
                      then JNumber (Expense.amount e) else JNull) ]
     ++ match Expense.note e with
        | Some n => [(str "note", JString n)]
        | None => []
        end).

(** *** The collections the component can hold *)

(** The collection is empty at first, then what the load effect brings in
    (read at the declared type), then what the handlers make of it. *)
Inductive held : list Expense -> Prop :=
| held_initial : held []
| held_loaded st l : as_Expenses (load st) = Some l -> held l
| held_added now random36 s :
    held (Home.expenses s) -> held (Home.expenses (addExpense now random36 s))
| held_removed prev i : held prev -> held (removeExpense prev i).

(** *** Sample data *)

Definition sample_food : Expense :=
  Expense.mk (str "1-abc") (str "2025-11-01") (str "Food")
             (Fin (Dec 125 1)) None.

Definition sample_rent : Expense :=
  Expense.mk (str "2-xyz") (str "2025-10-03") (str "Housing")
             (Fin (Dec 900 0)) (Some (str "rent")).

Definition sample_lunch : Expense :=
  Expense.mk (str "3-def") (str "2025-11-02") (str "Food")
             (Fin (Dec 8 0)) None.

(** The state of the component with the form filled in. *)
Definition form (expenses : list Expense) (amount category date note : string)
  : Home.state :=
  Home.mk expenses (str amount) (str category) (str date) (str note)
          (str "all").

(** A string literal between double quotes. *)
Definition quoted (s : string) : jsstring := 34%N :: str s ++ [34%N].

(** A slot holding an array of one record whose amount is -5. *)
Definition refund_slot : jsstring :=
  str "[{" ++ quoted "id" ++ str ":" ++ quoted "7-abc" ++ str ","
  ++ quoted "date" ++ str ":" ++ quoted "2025-11-01" ++ str ","
  ++ quoted "category" ++ str ":" ++ quoted "Food" ++ str ","
  ++ quoted "amount" ++ str ":-5}]".

(* ================================================================== *)
(** * Part II. Properties                                              *)
(* ================================================================== *)

(** ** Strings *)

Lemma str_eqb_eq (a b : jsstring) : str_eqb a b = true <-> a = b.
Proof.
  revert b; induction a as [|x a IH]; intros [|y b]; simpl; split;
    try congruence; try reflexivity.
  - intros H. apply andb_prop in H as [Hx Hab].
    apply N.eqb_eq in Hx. apply IH in Hab. congruence.
  - intros H. injection H as -> ->. rewrite N.eqb_refl. simpl. now apply IH.
Qed.

Lemma str_eqb_refl (a : jsstring) : str_eqb a a = true.
Proof. now apply str_eqb_eq. Qed.

Lemma str_eqb_neq (a b : jsstring) : str_eqb a b = false <-> a <> b.
Proof.
  split.
  - intros H E. apply str_eqb_eq in E. congruence.
  - intros H. destruct (str_eqb a b) eqn:E; [|reflexivity].
    apply str_eqb_eq in E. contradiction.
Qed.

Lemma str_eqb_sym (a b : jsstring) : str_eqb a b = str_eqb b a.
Proof.
  destruct (str_eqb a b) eqn:E; symmetry.
  - apply str_eqb_eq. apply str_eqb_eq in E. congruence.
  - apply str_eqb_neq. apply str_eqb_neq in E. congruence.
Qed.

Lemma str_ltb_irrefl (a : jsstring) : str_ltb a a = false.
Proof.
  induction a as [|x a IH]; simpl; [reflexivity|].
  now rewrite N.ltb_irrefl.
Qed.

Lemma str_ltb_asym (a b : jsstring) : str_ltb a b = true -> str_ltb b a = false.
Proof.
  revert b; induction a as [|x a IH]; intros [|y b]; simpl; try congruence.
  destruct (x <? y)%N eqn:Hxy, (y <? x)%N eqn:Hyx; try congruence.
  - apply N.ltb_lt in Hxy, Hyx. lia.
  - apply IH.
Qed.

Lemma str_ltb_trans (a b c : jsstring) :
  str_ltb a b = true -> str_ltb b c = true -> str_ltb a c = true.
Proof.
  revert b c; induction a as [|x a IH]; intros [|y b] [|z c]; simpl;
    try congruence.
  destruct (x <? y)%N eqn:Hxy, (y <? x)%N eqn:Hyx,
           (y <? z)%N eqn:Hyz, (z <? y)%N eqn:Hzy,
           (x <? z)%N eqn:Hxz, (z <? x)%N eqn:Hzx;
    try congruence;
    repeat match goal with
           | H : (_ <? _)%N = true |- _ => apply N.ltb_lt in H
           | H : (_ <? _)%N = false |- _ => apply N.ltb_ge in H
           end; try lia.
  apply IH.
Qed.

Lemma str_ltb_total (a b : jsstring) :
  str_ltb a b = false -> str_ltb b a = false -> a = b.
Proof.
  revert b; induction a as [|x a IH]; intros [|y b]; simpl; try congruence.
  destruct (x <? y)%N eqn:Hxy, (y <? x)%N eqn:Hyx; try congruence.
  intros Hab Hba. apply N.ltb_ge in Hxy, Hyx.
  f_equal; [lia | now apply IH].
Qed.

(** ** trim *)

Lemma trim_start_suffix (s : jsstring) : exists p, s = p ++ trim_start s.
Proof.
  induction s as [|c s [p IH]]; [now exists []|]. cbn [trim_start].
  destruct (is_whitespace c).
  - exists (c :: p). cbn [app]. now rewrite <- IH.
  - now exists [].
Qed.

Lemma trim_start_head (s : jsstring) (c : N) (t : jsstring) :
  trim_start s = c :: t -> is_whitespace c = false.
Proof.
  induction s as [|x s IH]; cbn [trim_start]; [discriminate|].
  destruct (is_whitespace x) eqn:E; [exact IH|].
  intros H. injection H as -> _. exact E.
Qed.

Lemma last_of_rev (s : jsstring) (c d : N) (t : jsstring) :
  rev s = c :: t -> last s d = c.
Proof.
  intros H. apply (f_equal (@rev N)) in H. rewrite rev_involutive in H.
  subst s. cbn [rev]. apply last_last.
Qed.

(** [trim] leaves a tidy string as it is. *)
Lemma tidy_trim (s : jsstring) : tidy s = true -> trim s = s.
Proof.
  destruct s as [|c s]; [discriminate|]. unfold tidy.
  intros H. apply andb_prop in H as [Hc Hl].
  apply negb_true_iff in Hc, Hl.
  unfold trim, trim_end. cbn [trim_start]. rewrite Hc.
  destruct (rev (c :: s)) as [|x r] eqn:E.
  - apply (f_equal (@length N)) in E. rewrite length_rev in E. discriminate.
  - rewrite (last_of_rev _ _ c _ E) in Hl. cbn [trim_start]. rewrite Hl.
    now rewrite <- E, rev_involutive.
Qed.

(** What [trim] returns is empty or tidy. *)
Lemma trim_tidy (s : jsstring) : trim s <> [] -> tidy (trim s) = true.
Proof.
  unfold trim, trim_end. set (t := trim_start s).
  destruct (trim_start_suffix (rev t)) as [p Hp].
  destruct (trim_start (rev t)) as [|c u] eqn:E; [now intros []|].
  intros _.
  assert (Hc := trim_start_head _ _ _ E).
  assert (Ht : t = rev (c :: u) ++ rev p).
  { rewrite <- rev_app_distr, <- Hp. now rewrite rev_involutive. }
  destruct (rev (c :: u)) as [|x w] eqn:Ew.
  - apply (f_equal (@length N)) in Ew. rewrite length_rev in Ew. discriminate.
  - unfold tidy. apply andb_true_intro. split; apply negb_true_iff.
    + apply (trim_start_head s x (w ++ rev p)). exact Ht.
    + assert (R : rev (x :: w) = c :: u)
        by (rewrite <- Ew; apply rev_involutive).
      now rewrite (last_of_rev _ _ x _ R).
Qed.





(** ** Sequences *)

Lemma filter_keeps {A : Type} (f : A -> bool) (l : list A) :
  keeps (fun x => f x = true) l (filter f l).
Proof.
  induction l as [|x l IH]; simpl; [constructor|].
  destruct (f x) eqn:E.
  - now apply keeps_take.
  - apply keeps_drop; [congruence | assumption].
Qed.

Lemma keeps_all {A : Type} (P : A -> Prop) (l : list A) :
  (forall x, In x l -> P x) -> keeps P l l.
Proof.
  induction l as [|x l IH]; intros H; constructor.
  - apply H. now left.
  - apply IH. intros y Hy. apply H. now right.
Qed.

Lemma keeps_functional {A : Type} (P : A -> Prop) (l l1 l2 : list A) :
  keeps P l l1 -> keeps P l l2 -> l1 = l2.
Proof.
  intros H1; revert l2; induction H1; intros l2 H2; inversion H2; subst;
    try contradiction; try reflexivity.
  - f_equal. now apply IHkeeps.
  - now apply IHkeeps.
Qed.

Lemma keeps_In {A : Type} (P : A -> Prop) (l l' : list A) :
  keeps P l l' -> forall x, In x l' <-> In x l /\ P x.
Proof.
  induction 1; intros y; simpl.
  - tauto.
  - rewrite IHkeeps. split.
    + intros [->|[? ?]]; auto.
    + intros [[->|?] ?]; auto.
  - rewrite IHkeeps. split.
    + intros [? ?]; auto.
    + intros [[->|?] ?]; [contradiction | auto].
Qed.

Lemma keeps_none {A : Type} (P : A -> Prop) (l l' : list A) :
  keeps P l l' -> (forall x, In x l -> ~ P x) -> l' = [].
Proof.
  induction 1; intros Hn; [reflexivity| |].
  - exfalso. apply (Hn x); [now left | assumption].
  - apply IHkeeps. intros y Hy. apply Hn. now right.
Qed.

Lemma total_js_sum (l : list Expense) : total l = js_sum (map Expense.amount l).
Proof.
  unfold total, js_sum. generalize zero.
  induction l as [|e l IH]; intros acc; simpl; [reflexivity | apply IH].
Qed.

(** ** Decimal arithmetic *)

Lemma pow10_pos (k : nat) : 0 < pow10 k.
Proof. unfold pow10. apply Z.pow_pos_nonneg; lia. Qed.

Lemma pow10_S (k : nat) : pow10 (S k) = 10 * pow10 k.
Proof.
  unfold pow10. rewrite Nat2Z.inj_succ, Z.pow_succ_r by lia. reflexivity.
Qed.

Lemma pow10_add (j k : nat) : pow10 (j + k) = pow10 j * pow10 k.
Proof.
  unfold pow10. rewrite Nat2Z.inj_add, Z.pow_add_r by lia. reflexivity.
Qed.

(** [normalize] cancels a common power of ten and nothing else. *)
Lemma normalize_spec (m : Z) (k : nat) :
  exists j, (j <= k)%nat
            /\ scale (normalize m k) = (k - j)%nat
            /\ m = mant (normalize m k) * pow10 j.
Proof.
  revert m; induction k as [|k IH]; intros m; simpl.
  - exists 0%nat. simpl. unfold pow10. simpl. repeat split; lia.
  - destruct (m mod 10 =? 0) eqn:E.
    + destruct (IH (m / 10)) as [j [Hj [Hs Hm]]].
      exists (S j). repeat split; [lia | rewrite Hs; lia |].
      apply Z.eqb_eq in E. rewrite pow10_S.
      pose proof (Z.div_mod m 10) as D. simpl in Hm. nia.
    + exists 0%nat. simpl. unfold pow10. simpl. repeat split; lia.
Qed.

Lemma normalize_normal (m : Z) (k : nat) : normal (normalize m k) = true.
Proof.
  revert m; induction k as [|k IH]; intros m; simpl; [reflexivity|].
  destruct (m mod 10 =? 0) eqn:E; [apply IH|].
  unfold normal. simpl. now rewrite E.
Qed.

Lemma normalize_id (d : decimal) :
  normal d = true -> normalize (mant d) (scale d) = d.
Proof.
  destruct d as [m [|k]]; unfold normal; simpl; [reflexivity|].
  intros H. apply negb_true_iff in H. now rewrite H.
Qed.

Lemma normalize_sign (m : Z) (k : nat) :
  (0 ?= mant (normalize m k)) = (0 ?= m).
Proof.
  destruct (normalize_spec m k) as [j [_ [_ Hm]]].
  pose proof (pow10_pos j) as Hp.
  rewrite Hm at 2.
  destruct (Z.compare_spec 0 (mant (normalize m k))) as [H|H|H];
    symmetry; [apply Z.compare_eq_iff | apply Z.compare_lt_iff
               | apply Z.compare_gt_iff]; nia.
Qed.


Lemma dec_compare_le_trans (a b c : decimal) :
  dec_compare a b <> Gt -> dec_compare b c <> Gt -> dec_compare a c <> Gt.
Proof.
  unfold dec_compare. intros Hab Hbc.
  apply Z.compare_le_iff in Hab, Hbc. apply Z.compare_le_iff.
  pose proof (pow10_pos (scale a)) as Ha.
  pose proof (pow10_pos (scale b)) as Hb.
  pose proof (pow10_pos (scale c)) as Hc.
  apply (Z.mul_le_mono_pos_r _ _ (pow10 (scale b))); [assumption|].
  apply Z.le_trans with (mant b * pow10 (scale a) * pow10 (scale c)).
  - replace (mant a * pow10 (scale c) * pow10 (scale b))
      with (mant a * pow10 (scale b) * pow10 (scale c)) by ring.
    apply Z.mul_le_mono_pos_r; assumption.
  - replace (mant b * pow10 (scale a) * pow10 (scale c))
      with (mant b * pow10 (scale c) * pow10 (scale a)) by ring.
    replace (mant c * pow10 (scale a) * pow10 (scale b))
      with (mant c * pow10 (scale b) * pow10 (scale a)) by ring.
    apply Z.mul_le_mono_pos_r; assumption.
Qed.

Lemma dec_compare_antisym (a b : decimal) :
  dec_compare b a = CompOpp (dec_compare a b).
Proof. unfold dec_compare. apply Z.compare_antisym. Qed.

(** ** Lowest terms are unique *)

Lemma pow10_mod10 (k : nat) : pow10 (S k) mod 10 = 0.
Proof. rewrite pow10_S, Z.mul_comm. apply Z.mod_mul. lia. Qed.

Lemma normal_unique (a b : decimal) :
  normal a = true -> normal b = true ->
  mant a * pow10 (scale b) = mant b * pow10 (scale a) ->
  a = b.
Proof.
  assert (W : forall a b, normal b = true -> (scale a <= scale b)%nat ->
              mant a * pow10 (scale b) = mant b * pow10 (scale a) ->
              scale a = scale b).
  { clear. intros [ma ka] [mb kb]. unfold normal. simpl. intros Hb Hle E.
    destruct (Nat.eq_dec ka kb) as [|Hne]; [assumption|]. exfalso.
    destruct kb as [|kb]; [lia|]. apply negb_true_iff, Z.eqb_neq in Hb.
    apply Hb.
    replace (S kb) with (S (kb - ka) + ka)%nat in E by lia.
    rewrite pow10_add, Z.mul_assoc in E.
    apply Z.mul_cancel_r in E; [|pose proof (pow10_pos ka); lia].
    rewrite <- E, pow10_S.
    replace (ma * (10 * pow10 (kb - ka))) with (ma * pow10 (kb - ka) * 10)
      by ring.
    apply Z.mod_mul. lia. }
  intros Ha Hb E.
  assert (Hs : scale a = scale b).
  { destruct (Nat.le_ge_cases (scale a) (scale b)) as [Hle|Hle].
    - now apply W.
    - symmetry. apply W; [assumption | assumption | now symmetry]. }
  destruct a as [ma ka], b as [mb kb]. simpl in *. subst kb.
  apply Z.mul_cancel_r in E; [|pose proof (pow10_pos ka); lia].
  now subst.
Qed.

Lemma normalize_value (m : Z) (k : nat) :
  mant (normalize m k) * pow10 k = m * pow10 (scale (normalize m k)).
Proof.
  destruct (normalize_spec m k) as [j [Hj [Hs Hm]]].
  set (d := normalize m k) in *. rewrite Hs, Hm.
  assert (P : pow10 k = pow10 j * pow10 (k - j)).
  { rewrite <- pow10_add. f_equal. lia. }
  rewrite P. ring.
Qed.

(** Two fractions of the same value have the same lowest terms. *)
Lemma normalize_eq (m1 m2 : Z) (k1 k2 : nat) :
  m1 * pow10 k2 = m2 * pow10 k1 -> normalize m1 k1 = normalize m2 k2.
Proof.
  intros E. apply normal_unique; try apply normalize_normal.
  pose proof (normalize_value m1 k1) as V1.
  pose proof (normalize_value m2 k2) as V2.
  pose proof (pow10_pos k1) as P1. pose proof (pow10_pos k2) as P2.
  apply (Z.mul_cancel_r _ _ (pow10 k1 * pow10 k2)); [lia|].
  transitivity (mant (normalize m1 k1) * pow10 k1
                * (pow10 (scale (normalize m2 k2)) * pow10 k2)); [ring|].
  rewrite V1.
  transitivity (mant (normalize m2 k2) * pow10 k2
                * (pow10 (scale (normalize m1 k1)) * pow10 k1)); [|ring].
  rewrite V2.
  transitivity (m1 * pow10 k2 * (pow10 (scale (normalize m1 k1))
                                 * pow10 (scale (normalize m2 k2)))); [ring|].
  rewrite E. ring.
Qed.

Lemma normalize_opp (m : Z) (k : nat) :
  dec_opp (normalize m k) = normalize (- m) k.
Proof.
  apply normal_unique.
  - pose proof (normalize_normal m k) as H. unfold normal, dec_opp in *.
    cbn [mant scale]. destruct (scale (normalize m k)); [reflexivity|].
    apply negb_true_iff, Z.eqb_neq in H. apply negb_true_iff, Z.eqb_neq.
    intros E. apply H. apply Z.mod_opp_l_z in E; [|lia].
    now rewrite Z.opp_involutive in E.
  - apply normalize_normal.
  - unfold dec_opp. cbn [mant scale].
    pose proof (normalize_value m k) as V1.
    pose proof (normalize_value (- m) k) as V2.
    pose proof (pow10_pos k) as P.
    apply (Z.mul_cancel_r _ _ (pow10 k)); [lia|].
    transitivity (- (mant (normalize m k) * pow10 k)
                  * pow10 (scale (normalize (- m) k))); [ring|].
    rewrite V1.
    transitivity (mant (normalize (- m) k) * pow10 k
                  * pow10 (scale (normalize m k))); [|ring].
    rewrite V2. ring.
Qed.

Lemma decimal_of_parts_nonneg (ip fp : jsstring) (e : Z) (m : Z) (k : nat) :
  0 <= e - Z.of_nat (length fp) ->
  digits_value (ip ++ fp) * 10 ^ (e - Z.of_nat (length fp)) * pow10 k = m ->
  decimal_of_parts ip fp e = normalize m k.
Proof.
  intros Hq E. unfold decimal_of_parts.
  apply Z.leb_le in Hq. rewrite Hq.
  change (Dec (digits_value (ip ++ fp) * 10 ^ (e - Z.of_nat (length fp))) 0)
    with (normalize (digits_value (ip ++ fp)
                     * 10 ^ (e - Z.of_nat (length fp))) 0).
  apply normalize_eq. change (pow10 0) with 1. lia.
Qed.

Lemma decimal_of_parts_neg (ip fp : jsstring) (e : Z) (m : Z) (k : nat) :
  e - Z.of_nat (length fp) < 0 ->
  digits_value (ip ++ fp) * pow10 k
  = m * pow10 (Z.to_nat (Z.of_nat (length fp) - e)) ->
  decimal_of_parts ip fp e = normalize m k.
Proof.
  intros Hq E. unfold decimal_of_parts.
  apply Z.leb_gt in Hq. rewrite Hq.
  apply normalize_eq.
  replace (- (e - Z.of_nat (length fp))) with (Z.of_nat (length fp) - e)
    by ring.
  exact E.
Qed.

(** ** Decimals as rationals *)

Lemma pow10_to_pos (k : nat) : Z.pos (Z.to_pos (pow10 k)) = pow10 k.
Proof. apply Z2Pos.id, pow10_pos. Qed.

Lemma dec_Q_normalize (m : Z) (k : nat) :
  (dec_Q (normalize m k) == m # Z.to_pos (pow10 k))%Q.
Proof.
  unfold dec_Q, Qeq. cbn [Qnum Qden]. rewrite !pow10_to_pos.
  apply normalize_value.
Qed.

(** [+] on finite numbers is the exact sum. *)
Lemma dec_Q_add (a b : decimal) :
  (dec_Q (dec_add a b) == dec_Q a + dec_Q b)%Q.
Proof.
  unfold dec_add. rewrite dec_Q_normalize.
  unfold dec_Q, Qplus, Qeq. cbn [Qnum Qden].
  rewrite Pos2Z.inj_mul, !pow10_to_pos, pow10_add. ring.
Qed.

(** [<], [<=] on finite numbers are the order of the rationals. *)
Lemma dec_compare_Q (a b : decimal) :
  dec_compare a b = (dec_Q a ?= dec_Q b)%Q.
Proof.
  unfold dec_compare, dec_Q, Qcompare. cbn [Qnum Qden].
  now rewrite !pow10_to_pos.
Qed.

(** ** Number comparison *)

Lemma num_leb_trans (x y z : number) :
  num_leb x y = true -> num_leb y z = true -> num_leb x z = true.
Proof.
  unfold num_leb.
  destruct x as [|s|a], y as [|t|b], z as [|u|c]; simpl; try discriminate;
    repeat match goal with s : bool |- _ => destruct s end; simpl;
    try congruence.
  intros Hab Hbc.
  pose proof (dec_compare_le_trans a b c) as H.
  destruct (dec_compare a b), (dec_compare b c), (dec_compare a c);
    try discriminate; try reflexivity; exfalso; apply H; congruence.
Qed.



(** ** Array.prototype.sort *)

Section ArraySortFacts.
Context {A : Type}.
Variable comparefn : A -> A -> number.

Lemma sort_insert_perm (x : A) (l : list A) :
  Permutation (x :: l) (sort_insert comparefn x l).
Proof.
  induction l as [|y l IH]; simpl; [apply Permutation_refl|].
  destruct (sorts_after comparefn x y).
  - eapply Permutation_trans; [apply perm_swap|]. now apply perm_skip.
  - apply Permutation_refl.
Qed.

Lemma Array_sort_perm (l : list A) : Permutation l (Array_sort comparefn l).
Proof.
  induction l as [|x l IH]; simpl; [constructor|].
  eapply Permutation_trans; [apply perm_skip, IH | apply sort_insert_perm].
Qed.

(** A relation the comparator decides on the elements satisfying [ok]:
    whenever the comparator leaves [x] before [y] then [before x y], and
    whenever it moves [x] behind [y] then [before y x]. *)
Variable ok : A -> Prop.
Variable before : A -> A -> Prop.
Hypothesis stays :
  forall x y, ok x -> ok y -> sorts_after comparefn x y = false -> before x y.
Hypothesis moves :
  forall x y, ok x -> ok y -> sorts_after comparefn x y = true -> before y x.

Lemma sort_insert_ok (x : A) (l : list A) :
  ok x -> Forall ok l -> Forall ok (sort_insert comparefn x l).
Proof.
  intros Hx Hl. eapply Permutation_Forall; [apply sort_insert_perm|].
  now constructor.
Qed.

Lemma sort_insert_sorted (x : A) (l : list A) :
  ok x -> Forall ok l ->
  Sorted before l -> Sorted before (sort_insert comparefn x l).
Proof.
  intros Hx. induction l as [|y l IH]; intros Hok Hs; simpl.
  - repeat constructor.
  - apply Forall_cons_iff in Hok as [Hy Hok].
    destruct (sorts_after comparefn x y) eqn:E.
    + apply Sorted_inv in Hs as [Hs Hhd].
      constructor; [now apply IH|].
      destruct l as [|z l]; simpl.
      * constructor. now apply moves.
      * destruct (sorts_after comparefn x z); constructor.
        -- now apply HdRel_inv in Hhd.
        -- now apply moves.
    + constructor; [assumption|]. constructor. now apply stays.
Qed.

Lemma Array_sort_sorted (l : list A) :
  Forall ok l -> Sorted before (Array_sort comparefn l).
Proof.
  induction l as [|x l IH]; intros Hok; simpl; [constructor|].
  apply Forall_cons_iff in Hok as [Hx Hok].
  apply sort_insert_sorted; [assumption| |now apply IH].
  eapply Permutation_Forall; [apply Array_sort_perm | exact Hok].
Qed.

End ArraySortFacts.

Lemma StronglySorted_snoc {A : Type} (R : A -> A -> Prop) (l : list A) (x : A) :
  StronglySorted R l -> Forall (fun y => R y x) l -> StronglySorted R (l ++ [x]).
Proof.
  induction 1 as [|y l Hl IH Hy]; intros Hx; simpl.
  - repeat constructor.
  - apply Forall_cons_iff in Hx as [Hyx Hx].
    constructor; [now apply IH|].
    apply Forall_app. split; [assumption | now repeat constructor].
Qed.

Lemma StronglySorted_rev {A : Type} (R : A -> A -> Prop) (l : list A) :
  StronglySorted R l -> StronglySorted (fun a b => R b a) (rev l).
Proof.
  induction 1 as [|y l Hl IH Hy]; simpl; [constructor|].
  apply StronglySorted_snoc; [assumption|].
  apply Forall_rev. exact Hy.
Qed.

(** ** Set *)

Lemma existsb_str_eqb (v : jsstring) (s : list jsstring) :
  existsb (str_eqb v) s = true <-> In v s.
Proof.
  rewrite existsb_exists. split.
  - intros [x [Hx E]]. apply str_eqb_eq in E. now subst.
  - intros H. exists v. split; [assumption | apply str_eqb_refl].
Qed.

Lemma Set_add_In (s : list jsstring) (v x : jsstring) :
  In x (Set_add s v) <-> In x s \/ x = v.
Proof.
  unfold Set_add. destruct (existsb (str_eqb v) s) eqn:E.
  - apply existsb_str_eqb in E. split; [auto|]. intros [?| ->]; assumption.
  - rewrite in_app_iff. simpl. intuition.
Qed.

Lemma Set_add_NoDup (s : list jsstring) (v : jsstring) :
  NoDup s -> NoDup (Set_add s v).
Proof.
  intros H. unfold Set_add. destruct (existsb (str_eqb v) s) eqn:E; [assumption|].
  apply NoDup_app; [assumption | repeat constructor; intros [] |].
  intros x Hx [<-|[]].
  apply existsb_str_eqb in Hx. congruence.
Qed.

Lemma fold_Set_add_In (values s : list jsstring) (x : jsstring) :
  In x (fold_left Set_add values s) <-> In x s \/ In x values.
Proof.
  revert s; induction values as [|v values IH]; intros s; simpl.
  - tauto.
  - rewrite IH, Set_add_In. intuition.
Qed.

Lemma fold_Set_add_NoDup (values s : list jsstring) :
  NoDup s -> NoDup (fold_left Set_add values s).
Proof.
  revert s; induction values as [|v values IH]; intros s H; simpl;
    [assumption|].
  now apply IH, Set_add_NoDup.
Qed.

Lemma new_Set_In (values : list jsstring) (x : jsstring) :
  In x (new_Set values) <-> In x values.
Proof. unfold new_Set. rewrite fold_Set_add_In. simpl. tauto. Qed.

Lemma new_Set_NoDup (values : list jsstring) : NoDup (new_Set values).
Proof. apply fold_Set_add_NoDup. constructor. Qed.

(** ** Map *)

Lemma Map_get_set (m : JSMap) (k k' : jsstring) (v : number) :
  Map_get (Map_set m k v) k' = if str_eqb k k' then Some v else Map_get m k'.
Proof.
  induction m as [|[k0 v0] m IH]; simpl.
  - reflexivity.
  - destruct (str_eqb k0 k) eqn:E; simpl.
    + apply str_eqb_eq in E. subst k0.
      destruct (str_eqb k k'); reflexivity.
    + rewrite IH. destruct (str_eqb k0 k') eqn:E'; [|reflexivity].
      apply str_eqb_eq in E'. subst k0.
      rewrite (str_eqb_sym k k'), E. reflexivity.
Qed.

Lemma Map_set_keys (m : JSMap) (k : jsstring) (v : number) :
  map fst (Map_set m k v)
  = if existsb (str_eqb k) (map fst m) then map fst m else map fst m ++ [k].
Proof.
  induction m as [|[k0 v0] m IH]; simpl; [reflexivity|].
  destruct (str_eqb k0 k) eqn:E; simpl.
  - apply str_eqb_eq in E. subst k0. now rewrite str_eqb_refl.
  - rewrite (str_eqb_sym k k0), E, IH. simpl.
    destruct (existsb (str_eqb k) (map fst m)); reflexivity.
Qed.

Lemma Map_set_keys_In (m : JSMap) (k : jsstring) (v : number) (x : jsstring) :
  In x (map fst (Map_set m k v)) <-> In x (map fst m) \/ x = k.
Proof. rewrite Map_set_keys. apply (Set_add_In (map fst m) k x). Qed.

Lemma Map_set_keys_NoDup (m : JSMap) (k : jsstring) (v : number) :
  NoDup (map fst m) -> NoDup (map fst (Map_set m k v)).
Proof. rewrite Map_set_keys. apply (Set_add_NoDup (map fst m) k). Qed.

Lemma Map_get_In (m : JSMap) (k : jsstring) (v : number) :
  NoDup (map fst m) -> In (k, v) m -> Map_get m k = Some v.
Proof.
  induction m as [|[k0 v0] m IH]; simpl; [tauto|].
  intros Hnd [E|Hin].
  - injection E as -> ->. now rewrite str_eqb_refl.
  - apply NoDup_cons_iff in Hnd as [Hnin Hnd].
    destruct (str_eqb k0 k) eqn:E; [|now apply IH].
    apply str_eqb_eq in E. subst k0. exfalso. apply Hnin.
    apply in_map_iff. now exists (k, v).
Qed.

(** ** removeExpense *)

Lemma removeExpense_absent (prev : list Expense) (i : jsstring) :
  (forall e, In e prev -> Expense.id e <> i) -> removeExpense prev i = prev.
Proof.
  intros H. unfold removeExpense. induction prev as [|e prev IH]; simpl.
  - reflexivity.
  - assert (He : str_eqb (Expense.id e) i = false).
    { apply str_eqb_neq. apply H. now left. }
    rewrite He. simpl. f_equal. apply IH. intros x Hx. apply H. now right.
Qed.

Lemma removeExpense_In (prev : list Expense) (i : jsstring) (e : Expense) :
  In e (removeExpense prev i) <-> In e prev /\ Expense.id e <> i.
Proof.
  unfold removeExpense. rewrite filter_In, negb_true_iff, str_eqb_neq.
  reflexivity.
Qed.

(** C10. [removeExpense] is idempotent: removing the same id a second time
    changes nothing; and removing an id that no record of the collection
    carries returns the collection as it was. *)
Theorem removeExpense_idempotent (prev : list Expense) (i : jsstring) :
  removeExpense (removeExpense prev i) i = removeExpense prev i
  /\ ((forall e, In e prev -> Expense.id e <> i) -> removeExpense prev i = prev).
Proof.
  split; [|apply removeExpense_absent].
  apply removeExpense_absent. intros e He.
  now apply removeExpense_In in He.
Qed.

Lemma removeExpense_idempotent_witness :
  removeExpense (removeExpense [sample_food; sample_rent] (str "9-zzz")) (str "9-zzz")
  = removeExpense [sample_food; sample_rent] (str "9-zzz")
  /\ removeExpense [sample_food; sample_rent] (str "9-zzz")
     = [sample_food; sample_rent].
Proof.
  destruct (removeExpense_idempotent [sample_food; sample_rent] (str "9-zzz"))
    as [H1 H2].
  split; [exact H1|]. apply H2.
  intros e [<-|[<-|[]]]; vm_compute; discriminate.
Defined.

(** ** Derived view: filtering and total *)

Lemma filteredExpenses_all (expenses : list Expense) :
  filteredExpenses expenses (str "all") = expenses.
Proof. reflexivity. Qed.

Lemma filteredExpenses_month (expenses : list Expense) (m : jsstring) :
  m <> str "all" ->
  filteredExpenses expenses m
  = filter (fun e => str_eqb (month_of e) m) expenses.
Proof.
  intros H. unfold filteredExpenses.
  apply str_eqb_neq in H. now rewrite H.
Qed.

(** C3. With the filter ["all"] every record passes and the total is the
    sum of all amounts.  With any other filter the filtered view keeps
    exactly the records whose date starts (first 7 code units) with the
    filter, in the order of the collection, the total is the sum of their
    amounts, and it is 0 when no record passes.  The sum is the one that
    [reduce] computes: [0 + a1 + ... + an] with the [+] of numbers, from
    left to right. *)
Theorem filteredExpenses_total (expenses : list Expense) (filterMonth : jsstring) :
  (filterMonth = str "all" ->
     filteredExpenses expenses filterMonth = expenses
     /\ total (filteredExpenses expenses filterMonth)
        = js_sum (map Expense.amount expenses))
  /\ (filterMonth <> str "all" ->
     keeps (fun e => firstn 7 (Expense.date e) = filterMonth)
           expenses (filteredExpenses expenses filterMonth)
     /\ (forall passing,
           keeps (fun e => firstn 7 (Expense.date e) = filterMonth)
                 expenses passing ->
           total (filteredExpenses expenses filterMonth)
           = js_sum (map Expense.amount passing))
     /\ ((forall e, In e expenses -> firstn 7 (Expense.date e) <> filterMonth) ->
           total (filteredExpenses expenses filterMonth) = zero)).
Proof.
  split.
  - intros ->. rewrite filteredExpenses_all. split; [reflexivity|].
    apply total_js_sum.
  - intros Hne. rewrite (filteredExpenses_month _ _ Hne).
    assert (K : keeps (fun e => firstn 7 (Expense.date e) = filterMonth)
                  expenses
                  (filter (fun e => str_eqb (month_of e) filterMonth) expenses)).
    { clear Hne. induction expenses as [|e l IH]; simpl; [constructor|].
      destruct (str_eqb (month_of e) filterMonth) eqn:E.
      - apply keeps_take; [|exact IH]. now apply str_eqb_eq in E.
      - apply keeps_drop; [|exact IH]. now apply str_eqb_neq in E. }
    split; [exact K|]. split.
    + intros passing Hp. rewrite (keeps_functional _ _ _ _ Hp K).
      apply total_js_sum.
    + intros Hnone. now rewrite (keeps_none _ _ _ K Hnone).
Qed.

Lemma filteredExpenses_total_witness :
  (filteredExpenses [sample_food; sample_rent] (str "all")
   = [sample_food; sample_rent]
   /\ total (filteredExpenses [sample_food; sample_rent] (str "all"))
      = Fin (Dec 9125 1))
  /\ keeps (fun e => firstn 7 (Expense.date e) = str "2025-11")
           [sample_food; sample_rent]
           (filteredExpenses [sample_food; sample_rent] (str "2025-11"))
  /\ total (filteredExpenses [sample_food; sample_rent] (str "2025-11"))
     = Fin (Dec 125 1)
  /\ total (filteredExpenses [sample_food; sample_rent] (str "1999-01")) = zero.
Proof.
  split; [|split; [|split]].
  - destruct (filteredExpenses_total [sample_food; sample_rent] (str "all"))
      as [H _].
    destruct (H eq_refl) as [H1 H2]. split; [exact H1|].
    rewrite H2. reflexivity.
  - destruct (filteredExpenses_total [sample_food; sample_rent] (str "2025-11"))
      as [_ H].
    apply H. vm_compute. discriminate.
  - destruct (filteredExpenses_total [sample_food; sample_rent] (str "2025-11"))
      as [_ H].
    destruct H as [_ [H _]]; [vm_compute; discriminate|].
    rewrite (H [sample_food]); [reflexivity|].
    apply keeps_take; [reflexivity|].
    apply keeps_drop; [vm_compute; discriminate | constructor].
  - destruct (filteredExpenses_total [sample_food; sample_rent] (str "1999-01"))
      as [_ H].
    destruct H as [_ [_ H]]; [vm_compute; discriminate|].
    apply H. intros e [<-|[<-|[]]]; vm_compute; discriminate.
Defined.

(** ** Derived view: known months *)

Lemma sorts_after_default (x y : jsstring) :
  sorts_after default_compare x y = str_ltb y x.
Proof.
  unfold sorts_after, default_compare.
  destruct (str_ltb x y) eqn:Hxy.
  - rewrite (str_ltb_asym _ _ Hxy). reflexivity.
  - destruct (str_ltb y x); reflexivity.
Qed.

Lemma Sorted_NoDup_strict (l : list jsstring) :
  Sorted (fun a b => str_ltb b a = false) l -> NoDup l ->
  Sorted (fun a b => str_ltb a b = true) l.
Proof.
  induction 1 as [|x l Hs IH Hhd]; intros Hnd; constructor.
  - apply IH. now apply NoDup_cons_iff in Hnd.
  - destruct Hhd as [|y l Hyx]; constructor.
    destruct (str_ltb x y) eqn:E; [reflexivity|].
    apply NoDup_cons_iff in Hnd as [Hnin _].
    exfalso. apply Hnin. left. symmetry. now apply str_ltb_total.
Qed.

Lemma default_sort_ascending (l : list jsstring) :
  NoDup l ->
  StronglySorted (fun a b => str_ltb a b = true) (Array_sort default_compare l).
Proof.
  intros Hnd. apply Sorted_StronglySorted.
  - intros a b c. apply str_ltb_trans.
  - apply Sorted_NoDup_strict.
    + apply (Array_sort_sorted default_compare (fun _ => True)).
      * intros x y _ _. rewrite sorts_after_default. auto.
      * intros x y _ _. rewrite sorts_after_default. apply str_ltb_asym.
      * apply Forall_forall. auto.
    + eapply Permutation_NoDup; [apply Array_sort_perm | exact Hnd].
Qed.

(** C9. The known months are exactly the 7-code-unit date prefixes that
    occur among all records of the collection (the filter plays no part),
    each listed once, in strictly descending lexicographic order. *)
Theorem months_distinct_descending (expenses : list Expense) :
  (forall m, In m (months expenses)
             <-> exists e, In e expenses /\ firstn 7 (Expense.date e) = m)
  /\ NoDup (months expenses)
  /\ StronglySorted (fun a b => str_ltb b a = true) (months expenses).
Proof.
  unfold months. split; [|split].
  - intros m. rewrite <- in_rev.
    assert (P := Array_sort_perm default_compare
                   (new_Set (map month_of expenses))).
    split.
    + intros H. apply (Permutation_in _ (Permutation_sym P)) in H.
      apply new_Set_In, in_map_iff in H as [e [He Hin]].
      exists e. split; [assumption | exact He].
    + intros [e [Hin He]]. apply (Permutation_in _ P).
      apply new_Set_In, in_map_iff. exists e. split; [exact He | assumption].
  - apply NoDup_rev. eapply Permutation_NoDup; [apply Array_sort_perm|].
    apply new_Set_NoDup.
  - apply (StronglySorted_rev (fun a b => str_ltb a b = true)).
    apply default_sort_ascending, new_Set_NoDup.
Qed.

Example months_sample :
  months [sample_food; sample_rent; sample_lunch]
  = [str "2025-11"; str "2025-10"].
Proof. reflexivity. Qed.

(** ** Derived view: category subtotals *)

Lemma accumulate_get (m : JSMap) (l : list Expense) (c : jsstring) :
  Map_get (fold_left accumulate l m) c
  = match amounts_of c l with
    | [] => Map_get m c
    | _ :: _ =>
        Some (fold_left num_add (amounts_of c l) (nullish (Map_get m c) zero))
    end.
Proof.
  revert m; induction l as [|e l IH]; intros m; [reflexivity|].
  cbn [fold_left]. rewrite IH. unfold amounts_of. cbn [filter].
  unfold accumulate. rewrite Map_get_set.
  destruct (str_eqb (Expense.category e) c) eqn:E.
  - apply str_eqb_eq in E. subst c. cbn [map fold_left nullish].
    destruct (map Expense.amount
                (filter (fun e0 => str_eqb (Expense.category e0)
                                           (Expense.category e)) l));
      reflexivity.
  - reflexivity.
Qed.

Lemma accumulate_keys_In (m : JSMap) (l : list Expense) (k : jsstring) :
  In k (map fst (fold_left accumulate l m))
  <-> In k (map fst m) \/ exists e, In e l /\ Expense.category e = k.
Proof.
  revert m; induction l as [|e l IH]; intros m; simpl.
  - split; [auto | intros [?|[? [[] _]]]; assumption].
  - rewrite IH. unfold accumulate at 1. rewrite Map_set_keys_In. split.
    + intros [[?| ->]|[x [? ?]]]; eauto.
    + intros [?|[x [[<-|?] <-]]]; eauto.
Qed.

Lemma accumulate_keys_NoDup (m : JSMap) (l : list Expense) :
  NoDup (map fst m) -> NoDup (map fst (fold_left accumulate l m)).
Proof.
  revert m; induction l as [|e l IH]; intros m H; simpl; [assumption|].
  apply IH. now apply Map_set_keys_NoDup.
Qed.




Lemma filteredExpenses_incl (expenses : list Expense) (m : jsstring) :
  incl (filteredExpenses expenses m) expenses.
Proof.
  unfold filteredExpenses. destruct (str_eqb m (str "all")).
  - apply incl_refl.
  - apply incl_filter.
Qed.

Lemma categoryTotals_In (l : list Expense) (t : CategoryTotal) :
  In t (categoryTotals l) <-> In (cat t, amt t) (fold_left accumulate l []).
Proof.
  unfold categoryTotals.
  set (totals := fold_left accumulate l []).
  set (cmp := fun a b : CategoryTotal => num_sub (amt b) (amt a)).
  set (mk := fun '(c, a) => {| cat := c; amt := a |}).
  pose proof (Array_sort_perm cmp (map mk totals)) as P.
  split.
  - intros H. apply (Permutation_in _ (Permutation_sym P)) in H.
    apply in_map_iff in H as [[c a] [E Hin]]. subst t. exact Hin.
  - intros H. apply (Permutation_in _ P). apply in_map_iff.
    exists (cat t, amt t). split; [now destruct t | assumption].
Qed.

Lemma categoryTotals_cats (l : list Expense) :
  Permutation (map fst (fold_left accumulate l []))
              (map cat (categoryTotals l)).
Proof.
  unfold categoryTotals.
  set (totals := fold_left accumulate l []).
  set (cmp := fun a b : CategoryTotal => num_sub (amt b) (amt a)).
  set (mk := fun '(c, a) => {| cat := c; amt := a |}).
  eapply Permutation_trans;
    [|apply Permutation_map, (Array_sort_perm cmp (map mk totals))].
  rewrite map_map. erewrite map_ext; [apply Permutation_refl|].
  now intros [c a].
Qed.

Lemma categoryTotals_subtotal (l : list Expense) (t : CategoryTotal) :
  In t (categoryTotals l) -> amt t = js_sum (amounts_of (cat t) l).
Proof.
  intros H. apply categoryTotals_In in H.
  apply Map_get_In in H; [|apply accumulate_keys_NoDup; constructor].
  rewrite accumulate_get in H. simpl in H.
  destruct (amounts_of (cat t) l) eqn:E; [discriminate|].
  injection H as <-. reflexivity.
Qed.



(** ** addExpense: validation *)

Lemma num_gtb_zero_valid (x : number) :
  num_gtb x zero = true ->
  Number_isNaN x || num_leb x zero = false.
Proof.
  unfold num_gtb, num_ltb, num_leb.
  destruct x as [|[]|d]; simpl; try discriminate; try reflexivity.
  rewrite (dec_compare_antisym dec_zero d).
  destruct (dec_compare dec_zero d); simpl; congruence.
Qed.

Lemma truthy_nonempty (s : jsstring) : truthy s = true <-> s <> [].
Proof. destruct s; simpl; split; congruence. Qed.

Lemma addExpense_accepts (now : Z) (random36 : jsstring) (s : Home.state) :
  num_gtb (parseFloat (Home.amount s)) zero = true ->
  Home.date s <> [] ->
  addExpense now random36 s
  = {| Home.expenses :=
         newExpense now random36 (parseFloat (Home.amount s)) s
           :: Home.expenses s;
       Home.amount := [];
       Home.category := Home.category s;
       Home.date := Home.date s;
       Home.note := [];
       Home.filterMonth := Home.filterMonth s |}.
Proof.
  intros Hpos Hdate. unfold addExpense.
  rewrite (num_gtb_zero_valid _ Hpos).
  apply truthy_nonempty in Hdate. now rewrite Hdate.
Qed.

(** C4. When the amount text parses to a number greater than zero (any
    finite positive value in particular) and the date is not empty,
    [addExpense] puts exactly one record, the new one, in front of the
    collection: the size grows by one and the previous records follow the
    new record unchanged. *)
Theorem addExpense_prepends (now : Z) (random36 : jsstring) (s : Home.state) :
  num_gtb (parseFloat (Home.amount s)) zero = true ->
  Home.date s <> [] ->
  Home.expenses (addExpense now random36 s)
  = newExpense now random36 (parseFloat (Home.amount s)) s :: Home.expenses s
  /\ length (Home.expenses (addExpense now random36 s))
     = S (length (Home.expenses s)).
Proof.
  intros Hpos Hdate. rewrite (addExpense_accepts _ _ _ Hpos Hdate).
  split; reflexivity.
Qed.

(** C5. When the amount text does not parse to a number ([NaN]), or parses
    to a number that is [<= 0], or the date is empty, [addExpense] returns
    the state it was given: no record is created and nothing is raised
    (the function is total). *)
Theorem addExpense_rejects (now : Z) (random36 : jsstring) (s : Home.state) :
  Number_isNaN (parseFloat (Home.amount s)) = true
  \/ num_leb (parseFloat (Home.amount s)) zero = true
  \/ Home.date s = [] ->
  addExpense now random36 s = s.
Proof.
  intros H. unfold addExpense.
  destruct (Number_isNaN (parseFloat (Home.amount s))
            || num_leb (parseFloat (Home.amount s)) zero) eqn:E;
    [reflexivity|].
  apply orb_false_elim in E as [E1 E2].
  destruct H as [H|[H|H]]; try congruence.
  rewrite H. reflexivity.
Qed.

Lemma addExpense_prepends_witness :
  Home.expenses (addExpense 1762000000000 (str "0.4fzyo82mvyr")
                   (form [sample_rent] "12.50" "Food" "2025-11-01" ""))
  = [ Expense.mk (str "1762000000000-4fzyo8") (str "2025-11-01") (str "Food")
                 (Fin (Dec 125 1)) None;
      sample_rent ]
  /\ length (Home.expenses
               (addExpense 1762000000000 (str "0.4fzyo82mvyr")
                  (form [sample_rent] "12.50" "Food" "2025-11-01" ""))) = 2%nat.
Proof.
  destruct (addExpense_prepends 1762000000000 (str "0.4fzyo82mvyr")
              (form [sample_rent] "12.50" "Food" "2025-11-01" ""))
    as [H1 H2].
  - vm_compute. reflexivity.
  - vm_compute. discriminate.
  - split; [rewrite H1; vm_compute; reflexivity | exact H2].
Defined.

Lemma addExpense_rejects_witness :
  addExpense 1762000000000 (str "0.4fzyo82mvyr")
    (form [sample_rent] "abc" "Food" "2025-11-01" "")
  = form [sample_rent] "abc" "Food" "2025-11-01" ""
  /\ addExpense 1762000000000 (str "0.4fzyo82mvyr")
       (form [sample_rent] "-5" "Food" "2025-11-01" "")
     = form [sample_rent] "-5" "Food" "2025-11-01" ""
  /\ addExpense 1762000000000 (str "0.4fzyo82mvyr")
       (form [sample_rent] "0" "Food" "2025-11-01" "")
     = form [sample_rent] "0" "Food" "2025-11-01" ""
  /\ addExpense 1762000000000 (str "0.4fzyo82mvyr")
       (form [sample_rent] "7" "Food" "" "")
     = form [sample_rent] "7" "Food" "" "".
Proof.
  split; [|split; [|split]]; apply addExpense_rejects.
  - left. vm_compute. reflexivity.
  - right. left. vm_compute. reflexivity.
  - right. left. vm_compute. reflexivity.
  - right. right. reflexivity.
Defined.

(** ** Decimal digits *)

Lemma is_digit_spec (c : N) : is_digit c = true <-> (48 <= c <= 57)%N.
Proof.
  unfold is_digit. rewrite andb_true_iff, !N.leb_le. reflexivity.
Qed.

Lemma digit_code_digit (d : Z) :
  0 <= d <= 9 -> is_digit (digit_code d) = true.
Proof. intros H. apply is_digit_spec. unfold digit_code. lia. Qed.

Lemma digit_code_value (d : Z) :
  0 <= d <= 9 -> digit_value (digit_code d) = d.
Proof. intros H. unfold digit_value, digit_code. lia. Qed.

Lemma digit_value_range (c : N) :
  is_digit c = true -> 0 <= digit_value c <= 9.
Proof. intros H. apply is_digit_spec in H. unfold digit_value. lia. Qed.

Lemma digits_fold_acc (ds : jsstring) (acc : Z) :
  fold_left (fun a c => a * 10 + digit_value c) ds acc
  = acc * pow10 (length ds) + digits_value ds.
Proof.
  unfold digits_value. revert acc.
  induction ds as [|c ds IH]; intros acc; cbn [fold_left length].
  - change (pow10 0) with 1. lia.
  - rewrite IH, (IH (0 * 10 + digit_value c)), pow10_S. ring.
Qed.

Lemma digits_value_cons (c : N) (ds : jsstring) :
  digits_value (c :: ds) = digit_value c * pow10 (length ds) + digits_value ds.
Proof.
  unfold digits_value at 1. cbn [fold_left]. rewrite digits_fold_acc. ring.
Qed.

Lemma digits_value_app (a b : jsstring) :
  digits_value (a ++ b) = digits_value a * pow10 (length b) + digits_value b.
Proof.
  unfold digits_value at 1. rewrite fold_left_app.
  fold (digits_value a). apply digits_fold_acc.
Qed.

Lemma digits_value_bounds (ds : jsstring) :
  Forall (fun c => is_digit c = true) ds ->
  0 <= digits_value ds < pow10 (length ds).
Proof.
  induction 1 as [|c ds Hc Hds IH].
  - cbn. change (pow10 0) with 1. lia.
  - rewrite digits_value_cons. cbn [length]. rewrite pow10_S.
    apply digit_value_range in Hc. pose proof (pow10_pos (length ds)). nia.
Qed.

Lemma zeros_digits (k : nat) : Forall (fun c => is_digit c = true) (zeros k).
Proof. apply Forall_forall. intros c H. apply repeat_spec in H. now subst. Qed.

Lemma zeros_length (k : nat) : length (zeros k) = k.
Proof. apply repeat_length. Qed.

Lemma digits_value_zeros (k : nat) : digits_value (zeros k) = 0.
Proof.
  induction k as [|k IH]; [reflexivity|].
  change (zeros (S k)) with (48%N :: zeros k).
  rewrite digits_value_cons, IH. reflexivity.
Qed.

Lemma digits_value_leading_zeros (k : nat) (ds : jsstring) :
  digits_value (zeros k ++ ds) = digits_value ds.
Proof. rewrite digits_value_app, digits_value_zeros. lia. Qed.

Lemma digits_value_trailing_zeros (k : nat) (ds : jsstring) :
  digits_value (ds ++ zeros k) = digits_value ds * pow10 k.
Proof. rewrite digits_value_app, digits_value_zeros, zeros_length. lia. Qed.

Lemma to_digits_aux_canonical (fuel : nat) (n : Z) (acc : jsstring) :
  0 <= n < pow10 (S fuel) ->
  exists ds, to_digits_aux (S fuel) n acc = ds ++ acc /\ canonical n ds.
Proof.
  revert n acc; induction fuel as [|fuel IH]; intros n acc Hn;
    cbn [to_digits_aux]; destruct (n <? 10) eqn:E.
  1, 3: apply Z.ltb_lt in E; exists [digit_code n]; split; [reflexivity|];
    split; [|split];
    [ constructor; [apply digit_code_digit; lia | constructor]
    | rewrite digits_value_cons; cbn; change (pow10 0) with 1;
      rewrite digit_code_value by lia; lia
    | exists (digit_code n), []; split; reflexivity ].
  - apply Z.ltb_ge in E. change (pow10 1) with 10 in Hn. lia.
  - apply Z.ltb_ge in E. rewrite pow10_S in Hn.
    pose proof (Z.div_mod n 10 ltac:(lia)) as D.
    pose proof (Z.mod_pos_bound n 10 ltac:(lia)) as M.
    destruct (IH (n / 10) (digit_code (n mod 10) :: acc)) as [ds [Heq Hc]].
    { split; [apply Z.div_pos; lia|].
      apply Z.div_lt_upper_bound; lia. }
    exists (ds ++ [digit_code (n mod 10)]). split.
    { cbn [to_digits_aux] in Heq. rewrite Heq, <- app_assoc. reflexivity. }
    destruct Hc as [Hd [Hv [c [r [Hds Hz]]]]].
    split; [|split].
    + apply Forall_app. split; [assumption|].
      constructor; [apply digit_code_digit; lia | constructor].
    + rewrite digits_value_app, Hv. cbn [length].
      change (pow10 1) with 10. rewrite digits_value_cons. cbn.
      change (pow10 0) with 1. rewrite digit_code_value by lia. lia.
    + exists c, (r ++ [digit_code (n mod 10)]). split; [now rewrite Hds|].
      intros Hc0. exfalso. subst c. rewrite (Hz eq_refl) in Hds. subst ds.
      cbn in Hv. assert (1 <= n / 10) by (apply Z.div_le_lower_bound; lia).
      lia.
Qed.

Lemma to_digits_canonical (n : Z) : 0 <= n -> canonical n (to_digits n).
Proof.
  intros Hn. unfold to_digits.
  destruct (to_digits_aux_canonical (Z.to_nat (Z.log2 n)) n []) as [ds [E C]].
  - split; [assumption|]. unfold pow10.
    rewrite Nat2Z.inj_succ, Z2Nat.id by apply Z.log2_nonneg.
    destruct (Z.eq_dec n 0) as [->|Hne]; [cbn; lia|].
    pose proof (Z.log2_spec n ltac:(lia)) as [_ Hlt].
    eapply Z.lt_le_trans; [exact Hlt|].
    apply Z.pow_le_mono_l. pose proof (Z.log2_nonneg n). lia.
  - rewrite E, app_nil_r. exact C.
Qed.

(** ** Numeric literals *)

Lemma span_digits_app (ds rest : jsstring) :
  all_digits ds ->
  match rest with [] => True | c :: _ => is_digit c = false end ->
  span_digits (ds ++ rest) = (ds, rest).
Proof.
  intros Hds Hrest.
  induction Hds as [|c ds Hc Hds IH]; cbn [app span_digits].
  - destruct rest as [|c rest]; [reflexivity|].
    cbn [span_digits]. now rewrite Hrest.
  - now rewrite Hc, IH.
Qed.

Lemma scan_exponent_text (E : option Z) (rest : jsstring) :
  delimited rest ->
  scan_exponent (exp_text E ++ rest)
  = match E with Some e => Some (e, rest) | None => None end.
Proof.
  intros Hrest. destruct E as [e|]; simpl.
  - destruct (to_digits_canonical (Z.abs e) (Z.abs_nonneg e))
      as [Hd [Hv [c [r [Hds _]]]]].
    assert (Hspan : span_digits (to_digits (Z.abs e) ++ rest)
                    = (to_digits (Z.abs e), rest)).
    { apply span_digits_app; [assumption|].
      destruct rest; [exact I | apply Hrest]. }
    destruct (0 <=? e) eqn:Es; simpl; rewrite Hspan, Hds, <- Hds, Hv.
    + apply Z.leb_le in Es. do 2 f_equal. lia.
    + apply Z.leb_gt in Es. do 2 f_equal. lia.
  - destruct rest as [|c rest]; [reflexivity|].
    destruct Hrest as [_ [_ [H1 H2]]]. unfold scan_exponent.
    apply N.eqb_neq in H1, H2. now rewrite H1, H2.
Qed.

Lemma scan_literal_literal (ip fp : jsstring) (E : option Z) (rest : jsstring) :
  all_digits ip -> all_digits fp -> delimited rest ->
  scan_literal (literal ip fp E ++ rest)
  = (ip, match fp with [] => false | _ :: _ => true end, fp, E, rest).
Proof.
  intros Hip Hfp Hrest. unfold scan_literal, literal.
  rewrite <- !app_assoc.
  rewrite (span_digits_app ip); [|assumption|].
  2:{ destruct fp as [|c fp]; [|reflexivity].
      destruct E as [e|]; [reflexivity|]. simpl.
      destruct rest; [exact I | apply Hrest]. }
  assert (Hexp := scan_exponent_text E rest Hrest).
  destruct fp as [|c fp].
  - assert (Hfrac : scan_fraction (frac_text [] ++ exp_text E ++ rest)
                    = (false, [], exp_text E ++ rest)).
    { simpl. destruct E as [e|]; [reflexivity|]. simpl.
      destruct rest as [|x rest]; [reflexivity|].
      destruct Hrest as [_ [H _]]. unfold scan_fraction.
      apply N.eqb_neq in H. now rewrite H. }
    rewrite Hfrac, Hexp. destruct E; reflexivity.
  - assert (Hfrac : scan_fraction (frac_text (c :: fp) ++ exp_text E ++ rest)
                    = (true, c :: fp, exp_text E ++ rest)).
    { cbn [frac_text app scan_fraction]. change (46 =? 46)%N with true.
      cbv iota.
      change (c :: fp ++ exp_text E ++ rest)
        with ((c :: fp) ++ exp_text E ++ rest).
      rewrite (span_digits_app (c :: fp)); [reflexivity|assumption|].
      destruct E as [e|]; [reflexivity|]. simpl.
      destruct rest; [exact I | apply Hrest]. }
    rewrite Hfrac, Hexp. destruct E; reflexivity.
Qed.

Lemma starts_with_Infinity_digit (c : N) (s : jsstring) :
  is_digit c = true -> starts_with (str "Infinity") (c :: s) = false.
Proof.
  intros H. apply is_digit_spec in H. unfold starts_with. cbn.
  assert (E : (c =? 73)%N = false) by (apply N.eqb_neq; lia).
  now rewrite E.
Qed.

Lemma parse_unsigned_literal (ip fp : jsstring) (E : option Z) :
  all_digits ip -> ip <> [] -> all_digits fp ->
  parse_unsigned (literal ip fp E) = Fin (decimal_of_parts ip fp (nullish E 0)).
Proof.
  intros Hip Hne Hfp. unfold parse_unsigned.
  destruct ip as [|c ip]; [congruence|].
  assert (Hc : is_digit c = true) by now inversion Hip.
  change (literal (c :: ip) fp E) with (c :: ip ++ frac_text fp ++ exp_text E).
  rewrite starts_with_Infinity_digit by assumption.
  change (c :: ip ++ frac_text fp ++ exp_text E) with (literal (c :: ip) fp E).
  rewrite <- (app_nil_r (literal (c :: ip) fp E)).
  rewrite scan_literal_literal by (assumption || exact I).
  reflexivity.
Qed.

(** ** Number::toString writes a literal of the right value *)

Lemma drop_zeros_spec (l : jsstring) : exists z, l = zeros z ++ drop_zeros l.
Proof.
  induction l as [|c l [z IH]]; [now exists 0%nat|].
  cbn [drop_zeros]. destruct (c =? 48)%N eqn:E.
  - apply N.eqb_eq in E. subst c. exists (S z).
    change (zeros (S z)) with (48%N :: zeros z). cbn [app]. now f_equal.
  - now exists 0%nat.
Qed.

Lemma rev_zeros (z : nat) : rev (zeros z) = zeros z.
Proof.
  unfold zeros. induction z as [|z IH]; [reflexivity|].
  cbn [repeat rev]. rewrite IH. symmetry. apply repeat_cons.
Qed.

Lemma strip_trailing_zeros_spec (ds : jsstring) :
  exists z, ds = strip_trailing_zeros ds ++ zeros z.
Proof.
  unfold strip_trailing_zeros.
  destruct (drop_zeros_spec (rev ds)) as [z Hz]. exists z.
  rewrite <- (rev_involutive ds) at 1. rewrite Hz at 1.
  now rewrite rev_app_distr, rev_zeros.
Qed.

Lemma significant_digits (m : Z) :
  0 < m ->
  exists c r z,
    strip_trailing_zeros (to_digits m) = c :: r
    /\ to_digits m = (c :: r) ++ zeros z
    /\ all_digits (c :: r)
    /\ c <> 48%N
    /\ digits_value (c :: r) * pow10 z = m.
Proof.
  intros Hm.
  destruct (to_digits_canonical m ltac:(lia)) as [Hd [Hv [c [r [Hds Hz]]]]].
  destruct (strip_trailing_zeros_spec (to_digits m)) as [z Hs].
  assert (Hc : c <> 48%N).
  { intros ->. rewrite (Hz eq_refl) in Hds. rewrite Hds in Hv.
    cbn in Hv. lia. }
  destruct (strip_trailing_zeros (to_digits m)) as [|c' r'] eqn:E.
  - exfalso. rewrite Hds in Hs. destruct z; [discriminate|].
    cbn in Hs. congruence.
  - exists c', r', z. rewrite Hs in Hd, Hv. apply Forall_app in Hd as [Hd _].
    rewrite digits_value_trailing_zeros in Hv.
    repeat split; try assumption.
    rewrite Hds in Hs. cbn in Hs. congruence.
Qed.

Lemma Forall_firstn_skipn {A : Type} (P : A -> Prop) (n : nat) (l : list A) :
  Forall P l -> Forall P (firstn n l) /\ Forall P (skipn n l).
Proof.
  intros H. rewrite <- (firstn_skipn n l) in H. now apply Forall_app in H.
Qed.

Lemma exponent_text (e : Z) :
  str "e" ++ (if 0 <=? e then str "+" else str "-") ++ to_digits (Z.abs e)
  = exp_text (Some e).
Proof. unfold exp_text. destruct (0 <=? e); reflexivity. Qed.

Lemma Number_toString_denotes (d : decimal) :
  0 < mant d -> denotes (Number_toString (Fin d)) (mant d) (scale d).
Proof.
  intros Hm. destruct d as [m k]. cbn [mant scale] in *.
  destruct (significant_digits m Hm) as [c [r [z [Hs [Hds [Hd [Hc Hv]]]]]]].
  unfold Number_toString. cbn [mant scale].
  assert (E0 : (m =? 0) = false) by (apply Z.eqb_neq; lia).
  assert (E1 : (m <? 0) = false) by (apply Z.ltb_ge; lia).
  rewrite E0, E1, Z.abs_eq by lia. cbn [app].
  rewrite Hs, Hds, length_app, zeros_length.
  set (s := c :: r) in *.
  assert (Hlen : length s = S (length r)) by reflexivity.
  destruct ((Z.of_nat (length s) <=? Z.of_nat (length s + z) - Z.of_nat k)
            && (Z.of_nat (length s + z) - Z.of_nat k <=? 21)) eqn:C1.
  { (* integer notation *)
    apply andb_prop in C1 as [C1 _]. apply Z.leb_le in C1.
    exists (s ++ zeros (Z.to_nat (Z.of_nat (length s + z) - Z.of_nat k
                                  - Z.of_nat (length s)))), [], None.
    split; [unfold literal; cbn; now rewrite app_nil_r|].
    split; [apply Forall_app; split; [assumption | apply zeros_digits]|].
    split; [exists c, (r ++ zeros (Z.to_nat (Z.of_nat (length s + z)
                          - Z.of_nat k - Z.of_nat (length s))));
            split; [reflexivity | intros; contradiction]|].
    split; [constructor|].
    apply decimal_of_parts_nonneg; cbn [length nullish]; [lia|].
    rewrite app_nil_r, digits_value_trailing_zeros.
    change (10 ^ (0 - Z.of_nat 0)) with 1.
    rewrite <- Hv, Z.mul_1_r, <- Z.mul_assoc, <- pow10_add.
    do 2 f_equal. lia. }
  destruct ((0 <? Z.of_nat (length s + z) - Z.of_nat k)
            && (Z.of_nat (length s + z) - Z.of_nat k <=? 21)) eqn:C2.
  { (* a point inside the digits *)
    apply andb_prop in C2 as [C2 C2']. rewrite C2', andb_true_r in C1.
    apply Z.leb_gt in C1. apply Z.ltb_lt in C2. apply Z.leb_le in C2'.
    set (n := Z.to_nat (Z.of_nat (length s + z) - Z.of_nat k)).
    assert (Hn : (0 < n < length s)%nat) by lia.
    destruct (skipn n s) as [|x fp] eqn:Hfp.
    { exfalso. apply (f_equal (@length N)) in Hfp.
      rewrite length_skipn in Hfp. cbn [length] in Hfp. lia. }
    exists (firstn n s), (x :: fp), None.
    split; [unfold literal; cbn [frac_text exp_text];
            now rewrite app_nil_r|].
    split; [now apply Forall_firstn_skipn|].
    split; [exists c, (firstn (n - 1) r); split;
            [destruct n; [lia|]; cbn [firstn s]; f_equal; f_equal; lia
            | intros; contradiction]|].
    split; [rewrite <- Hfp; now apply Forall_firstn_skipn|].
    assert (Hl : length (x :: fp) = (length s - n)%nat).
    { rewrite <- Hfp. apply length_skipn. }
    apply decimal_of_parts_neg; cbn [nullish]; rewrite Hl; [lia|].
    rewrite <- Hfp, firstn_skipn, <- Hv, <- Z.mul_assoc, <- pow10_add.
    do 2 f_equal. lia. }
  destruct ((-6 <? Z.of_nat (length s + z) - Z.of_nat k)
            && (Z.of_nat (length s + z) - Z.of_nat k <=? 0)) eqn:C3.
  { (* zeros between the point and the digits *)
    apply andb_prop in C3 as [_ C3]. apply Z.leb_le in C3.
    set (j := Z.to_nat (- (Z.of_nat (length s + z) - Z.of_nat k))).
    exists [48%N], (zeros j ++ s), None.
    split; [unfold literal, frac_text, exp_text; rewrite app_nil_r;
            destruct (zeros j ++ s) eqn:Ez;
            [apply app_eq_nil in Ez as [_ Ez]; discriminate | reflexivity]|].
    split; [repeat constructor|].
    split; [exists 48%N, []; split; reflexivity|].
    split; [apply Forall_app; split; [apply zeros_digits | assumption]|].
    assert (Hl : length (zeros j ++ s) = (j + length s)%nat).
    { now rewrite length_app, zeros_length. }
    apply decimal_of_parts_neg; cbn [nullish]; rewrite Hl; [lia|].
    change ([48%N] ++ zeros j ++ s) with (zeros (S j) ++ s).
    rewrite digits_value_leading_zeros, <- Hv, <- Z.mul_assoc, <- pow10_add.
    do 2 f_equal. lia. }
  (* exponent notation *)
  set (e := Z.of_nat (length s + z) - Z.of_nat k - 1).
  assert (He : e - Z.of_nat (length r)
               = Z.of_nat z - Z.of_nat k) by lia.
  assert (Hval : decimal_of_parts [c] r e = normalize m k).
  { destruct (Z.le_gt_cases 0 (e - Z.of_nat (length r))) as [Hq|Hq].
    - apply decimal_of_parts_nonneg; [assumption|].
      change ([c] ++ r) with s. rewrite He, <- Hv.
      replace (Z.of_nat z - Z.of_nat k) with (Z.of_nat (z - k)) by lia.
      fold (pow10 (z - k)). rewrite <- Z.mul_assoc, <- pow10_add.
      do 2 f_equal. lia.
    - apply decimal_of_parts_neg; [assumption|].
      change ([c] ++ r) with s. rewrite <- Hv, <- Z.mul_assoc, <- pow10_add.
      do 2 f_equal. lia. }
  exists [c], r, (Some e).
  split.
  { unfold s. rewrite (exponent_text e). unfold literal.
    destruct r as [|x r]; reflexivity. }
  split; [constructor; [now inversion Hd | constructor]|].
  split; [exists c, []; split; [reflexivity | intros; contradiction]|].
  split; [now inversion Hd | exact Hval].
Qed.

(** ** parseFloat reads back what toString and toFixed write *)

Lemma digit_not_whitespace (c : N) :
  is_digit c = true -> is_whitespace c = false.
Proof.
  intros H. apply is_digit_spec in H. unfold is_whitespace.
  repeat match goal with
         | |- context [(c =? ?b)%N] =>
             replace (c =? b)%N with false by (symmetry; apply N.eqb_neq; lia)
         end.
  replace (c <=? 13)%N with false by (symmetry; apply N.leb_gt; lia).
  replace (8192 <=? c)%N with false by (symmetry; apply N.leb_gt; lia).
  now rewrite andb_false_r.
Qed.

Lemma parseFloat_denotes (text : jsstring) (m : Z) (k : nat) :
  denotes text m k -> parseFloat text = Fin (normalize m k).
Proof.
  intros [ip [fp [E [Ht [Hip [[c [r [Hc _]]] [Hfp Hv]]]]]]].
  rewrite <- Hv, <- (parse_unsigned_literal ip fp E), <- Ht;
    try assumption; [|subst ip; discriminate].
  assert (Hd : is_digit c = true) by (subst ip; now inversion Hip).
  assert (Hhd : exists t, text = c :: t).
  { subst text ip. now exists (r ++ frac_text fp ++ exp_text E). }
  destruct Hhd as [t ->]. unfold parseFloat. cbn [trim_start].
  rewrite (digit_not_whitespace c Hd).
  apply is_digit_spec in Hd.
  replace (c =? 45)%N with false by (symmetry; apply N.eqb_neq; lia).
  replace (c =? 43)%N with false by (symmetry; apply N.eqb_neq; lia).
  reflexivity.
Qed.

Lemma parseFloat_toString (d : decimal) :
  0 < mant d ->
  parseFloat (Number_toString (Fin d)) = Fin (normalize (mant d) (scale d)).
Proof. intros H. now apply parseFloat_denotes, Number_toString_denotes. Qed.

(** [round_scaled a f] is the integer nearest to [a * 10^f], the larger of
    the two on a tie. *)
Lemma round_scaled_nearest (a : decimal) (f : nat) :
  - pow10 (scale a)
  <= 2 * (mant a * pow10 f - round_scaled a f * pow10 (scale a))
  < pow10 (scale a).
Proof.
  unfold round_scaled. pose proof (pow10_pos (scale a)) as P.
  set (p := pow10 (scale a)) in *. set (x := mant a * pow10 f).
  replace (2 * mant a * pow10 f) with (2 * x) by (unfold x; ring).
  pose proof (Z.div_mod (2 * x + p) (2 * p) ltac:(lia)) as D.
  pose proof (Z.mod_pos_bound (2 * x + p) (2 * p) ltac:(lia)) as M.
  set (q := (2 * x + p) / (2 * p)) in *. lia.
Qed.

Lemma round_scaled_nonneg (a : decimal) (f : nat) :
  0 <= mant a -> 0 <= round_scaled a f.
Proof.
  intros H. unfold round_scaled.
  pose proof (pow10_pos (scale a)). pose proof (pow10_pos f).
  apply Z.div_pos; nia.
Qed.

Lemma toFixed_denotes (d : decimal) (f : nat) :
  0 <= mant d -> mant d < 10 ^ 21 * pow10 (scale d) ->
  denotes (toFixed (Fin d) (S f)) (round_scaled d (S f)) (S f).
Proof.
  intros Hm Hbig. unfold toFixed.
  assert (E1 : (mant d <? 0) = false) by (apply Z.ltb_ge; lia).
  rewrite E1. cbn [app mant scale]. rewrite Z.abs_eq by assumption.
  assert (E2 : (10 ^ 21 * pow10 (scale d) <=? mant d) = false)
    by (apply Z.leb_gt; lia).
  rewrite E2.
  replace (Dec (mant d) (scale d)) with d by now destruct d.
  set (n := round_scaled d (S f)).
  assert (Hn : 0 <= n) by now apply round_scaled_nonneg.
  assert (E3 : (if n =? 0 then str "0" else to_digits n) = to_digits n).
  { destruct (n =? 0) eqn:E; [|reflexivity].
    apply Z.eqb_eq in E. now rewrite E. }
  rewrite E3.
  destruct (to_digits_canonical n Hn) as [Hd [Hv [c [r [Hds Hz]]]]].
  set (padded := if (length (to_digits n) <=? S f)%nat
                 then zeros (S f + 1 - length (to_digits n)) ++ to_digits n
                 else to_digits n).
  assert (Hp : all_digits padded /\ digits_value padded = n
               /\ (S f < length padded)%nat
               /\ exists c' r', padded = c' :: r'
                    /\ (c' = 48%N -> length padded = S (S f))).
  { unfold padded. destruct (length (to_digits n) <=? S f)%nat eqn:E.
    - apply Nat.leb_le in E.
      split; [apply Forall_app; split; [apply zeros_digits | assumption]|].
      split; [now rewrite digits_value_leading_zeros|].
      rewrite length_app, zeros_length.
      split; [lia|].
      destruct (S f + 1 - length (to_digits n))%nat as [|j] eqn:Ej; [lia|].
      exists 48%N, (zeros j ++ to_digits n).
      split; [reflexivity | intros _; lia].
    - apply Nat.leb_gt in E. repeat split; try assumption.
      exists c, r. split; [assumption|].
      intros Hc. rewrite Hds, (Hz Hc) in E. cbn in E. lia. }
  destruct Hp as [Hpd [Hpv [Hpl [c' [r' [Hpe Hpz]]]]]].
  set (i := (length padded - S f)%nat).
  destruct (skipn i padded) as [|x fp] eqn:Hfp.
  { exfalso. apply (f_equal (@length N)) in Hfp.
    rewrite length_skipn in Hfp. cbn [length] in Hfp. lia. }
  exists (firstn i padded), (x :: fp), None.
  split; [unfold literal; cbn [frac_text exp_text]; now rewrite app_nil_r|].
  split; [now apply Forall_firstn_skipn|].
  split.
  { exists c', (firstn (i - 1) r'). split.
    - rewrite Hpe. destruct i as [|i'] eqn:Ei; [lia|].
      cbn [firstn]. do 2 f_equal. lia.
    - intros Hc. rewrite (Hpz Hc) in *.
      replace (i - 1)%nat with 0%nat by lia. reflexivity. }
  split; [rewrite <- Hfp; now apply Forall_firstn_skipn|].
  assert (Hl : length (x :: fp) = S f).
  { rewrite <- Hfp, length_skipn. lia. }
  apply decimal_of_parts_neg; cbn [nullish]; rewrite Hl; [lia|].
  rewrite <- Hfp, firstn_skipn, Hpv. f_equal. f_equal. lia.
Qed.

(** ** Numbers the program creates are in lowest terms *)

Lemma decimal_of_parts_normal (ip fp : jsstring) (e : Z) :
  normal (decimal_of_parts ip fp e) = true.
Proof.
  unfold decimal_of_parts.
  destruct (0 <=? e - Z.of_nat (length fp)); [reflexivity|].
  apply normalize_normal.
Qed.

Lemma dec_opp_normal (d : decimal) :
  normal d = true -> normal (dec_opp d) = true.
Proof.
  intros H. rewrite <- (normalize_id d H), normalize_opp.
  apply normalize_normal.
Qed.

Lemma parse_unsigned_normal (s : jsstring) (d : decimal) :
  parse_unsigned s = Fin d -> normal d = true.
Proof.
  unfold parse_unsigned.
  destruct (starts_with (str "Infinity") s); [discriminate|].
  destruct (scan_literal s) as [[[[ip dot] fp] e] rest].
  destruct ip, fp; try discriminate; intros E; injection E as <-;
    apply decimal_of_parts_normal.
Qed.

Lemma parseFloat_normal (s : jsstring) (d : decimal) :
  parseFloat s = Fin d -> normal d = true.
Proof.
  unfold parseFloat. destruct (trim_start s) as [|c r]; [discriminate|].
  destruct (c =? 45)%N; [|destruct (c =? 43)%N].
  - destruct (parse_unsigned r) as [| |a] eqn:E; try discriminate.
    intros H. injection H as <-.
    apply dec_opp_normal. now apply parse_unsigned_normal in E.
  - apply parse_unsigned_normal.
  - apply parse_unsigned_normal.
Qed.

(** A finite amount stored by [addExpense] satisfies the hypothesis of the
    round trip. *)
Lemma newExpense_wf (now : Z) (random36 : jsstring) (x : number)
    (s : Home.state) :
  is_finite (Expense.amount (newExpense now random36 x s)) = true ->
  wf_number (Expense.amount (newExpense now random36 x s)) = true.
Proof.
  unfold newExpense. cbn [Expense.amount].
  destruct (parseFloat (toFixed x 2)) as [| |d] eqn:E; try discriminate.
  intros _. cbn [wf_number]. now apply parseFloat_normal in E.
Qed.

(** ** addExpense: the record it builds *)

Lemma positive_Fin (d : decimal) : num_gtb (Fin d) zero = true <-> 0 < mant d.
Proof.
  unfold num_gtb, num_ltb, zero, dec_zero. cbn [num_compare].
  unfold dec_compare. cbn [mant scale]. change (pow10 0) with 1.
  rewrite Z.mul_0_l, Z.mul_1_r.
  destruct (Z.compare_spec 0 (mant d)); split; intros; try lia;
    try reflexivity; discriminate.
Qed.

(** The amount stored for the parsed amount [d]: [d] rounded to the nearest
    hundredth.  Numbers from [10^21] on are printed by [toFixed] in
    exponent notation, unrounded; a binary64 number that large is an
    integer, which is the case stated here. *)
Lemma stored_amount (d : decimal) :
  0 < mant d ->
  mant d < 10 ^ 21 * pow10 (scale d) \/ scale d = 0%nat ->
  parseFloat (toFixed (Fin d) 2) = Fin (normalize (round_scaled d 2) 2).
Proof.
  intros Hm Hr.
  destruct (Z.lt_ge_cases (mant d) (10 ^ 21 * pow10 (scale d))) as [Hlt|Hge].
  - apply parseFloat_denotes, toFixed_denotes; lia.
  - destruct Hr as [Hr|Hs]; [lia|].
    unfold toFixed.
    assert (E1 : (mant d <? 0) = false) by (apply Z.ltb_ge; lia).
    rewrite E1. cbn [app mant scale]. rewrite Z.abs_eq by lia.
    assert (E2 : (10 ^ 21 * pow10 (scale d) <=? mant d) = true)
      by (apply Z.leb_le; lia).
    rewrite E2, parseFloat_toString by assumption.
    cbn [mant scale]. f_equal. apply normalize_eq.
    unfold round_scaled. rewrite Hs.
    change (pow10 0) with 1. change (pow10 2) with 100.
    replace (2 * mant d * 100 + 1) with (1 + (mant d * 100) * 2) by ring.
    rewrite Z.mul_1_r, Z.div_add by lia. reflexivity.
Qed.





(** ** JSON strings: parse_chars reads back QuoteJSONString *)

Lemma hex_value_digit (n : N) :
  (n < 16)%N -> hex_value (hex_digit n) = Some n.
Proof.
  intros H. unfold hex_digit, hex_value.
  destruct (n <? 10)%N eqn:E.
  - apply N.ltb_lt in E.
    replace ((48 <=? 48 + n) && (48 + n <=? 57))%N with true.
    + f_equal. lia.
    + symmetry. apply andb_true_intro. split; apply N.leb_le; lia.
  - apply N.ltb_ge in E.
    replace ((48 <=? 87 + n) && (87 + n <=? 57))%N with false.
    + replace ((97 <=? 87 + n) && (87 + n <=? 102))%N with true.
      * f_equal. lia.
      * symmetry. apply andb_true_intro. split; apply N.leb_le; lia.
    + symmetry. apply andb_false_intro2. apply N.leb_gt. lia.
Qed.

Lemma hex4_escape (c : N) :
  (c < 65536)%N ->
  hex4 (hex_digit (c / 4096 mod 16)) (hex_digit (c / 256 mod 16))
       (hex_digit (c / 16 mod 16)) (hex_digit (c mod 16)) = Some c.
Proof.
  intros H. unfold hex4.
  rewrite !hex_value_digit by (apply N.mod_upper_bound; lia).
  f_equal.
  pose proof (N.div_mod c 16 ltac:(lia)) as D1.
  pose proof (N.div_mod (c / 16) 16 ltac:(lia)) as D2.
  pose proof (N.div_mod (c / 256) 16 ltac:(lia)) as D3.
  rewrite N.Div0.div_div in D2, D3.
  change (16 * 16)%N with 256%N in D2. change (256 * 16)%N with 4096%N in D3.
  assert (S : (c / 4096 < 16)%N) by (apply N.Div0.div_lt_upper_bound; lia).
  rewrite (N.mod_small (c / 4096) 16) by assumption.
  lia.
Qed.

Lemma parse_chars_unicode_escape (c : N) (t : jsstring) :
  (c < 65536)%N ->
  parse_chars (unicode_escape c ++ t) = prepend c (parse_chars t).
Proof.
  intros H. unfold unicode_escape. cbn [app parse_chars].
  change (92 =? 34)%N with false. change (92 =? 92)%N with true.
  change (117 =? 117)%N with true. cbv iota.
  now rewrite hex4_escape.
Qed.

Lemma parse_chars_plain (c : N) (t : jsstring) :
  (32 <= c)%N -> c <> 34%N -> c <> 92%N ->
  parse_chars (c :: t) = prepend c (parse_chars t).
Proof.
  intros H1 H2 H3. cbn [parse_chars].
  apply N.eqb_neq in H2, H3. rewrite H2, H3.
  replace (c <? 32)%N with false by (symmetry; apply N.ltb_ge; lia).
  reflexivity.
Qed.

Lemma parse_chars_escape_char (c : N) (t : jsstring) :
  parse_chars (escape_char c ++ t) = prepend c (parse_chars t).
Proof.
  unfold escape_char.
  destruct (c =? 8)%N eqn:E8; [apply N.eqb_eq in E8; now subst|].
  destruct (c =? 9)%N eqn:E9; [apply N.eqb_eq in E9; now subst|].
  destruct (c =? 10)%N eqn:E10; [apply N.eqb_eq in E10; now subst|].
  destruct (c =? 12)%N eqn:E12; [apply N.eqb_eq in E12; now subst|].
  destruct (c =? 13)%N eqn:E13; [apply N.eqb_eq in E13; now subst|].
  destruct (c =? 34)%N eqn:E34; [apply N.eqb_eq in E34; now subst|].
  destruct (c =? 92)%N eqn:E92; [apply N.eqb_eq in E92; now subst|].
  destruct (c <? 32)%N eqn:E32.
  { apply N.ltb_lt in E32. apply parse_chars_unicode_escape. lia. }
  apply N.ltb_ge in E32. apply N.eqb_neq in E34, E92.
  destruct (is_leading_surrogate c || is_trailing_surrogate c) eqn:Es.
  - apply parse_chars_unicode_escape.
    unfold is_leading_surrogate, is_trailing_surrogate in Es.
    apply orb_prop in Es as [Es|Es]; apply andb_prop in Es as [_ Es];
      apply N.leb_le in Es; lia.
  - now apply parse_chars_plain.
Qed.

Lemma surrogate_plain (c : N) :
  is_leading_surrogate c = true \/ is_trailing_surrogate c = true ->
  (32 <= c)%N /\ c <> 34%N /\ c <> 92%N.
Proof.
  unfold is_leading_surrogate, is_trailing_surrogate.
  intros [H|H]; apply andb_prop in H as [H _]; apply N.leb_le in H; lia.
Qed.

Lemma parse_chars_quote_chars (s rest : jsstring) :
  parse_chars (quote_chars s ++ 34%N :: rest) = Some (s, rest).
Proof.
  revert rest.
  enough (H : (forall rest, parse_chars (quote_chars s ++ 34%N :: rest)
                            = Some (s, rest))
              /\ (forall c rest,
                    parse_chars (quote_chars (c :: s) ++ 34%N :: rest)
                    = Some (c :: s, rest))) by apply H.
  induction s as [|c2 s [IH1 IH2]].
  - split; [reflexivity|]. intros c rest. cbn [quote_chars].
    now rewrite parse_chars_escape_char.
  - split; [apply IH2|]. intros c rest.
    change (quote_chars (c :: c2 :: s))
      with (if is_leading_surrogate c && is_trailing_surrogate c2
            then c :: c2 :: quote_chars s
            else escape_char c ++ quote_chars (c2 :: s)).
    destruct (is_leading_surrogate c && is_trailing_surrogate c2) eqn:E.
    + apply andb_prop in E as [E1 E2].
      destruct (surrogate_plain c (or_introl E1)) as [A1 [A2 A3]].
      destruct (surrogate_plain c2 (or_intror E2)) as [B1 [B2 B3]].
      cbn [app]. rewrite parse_chars_plain by assumption.
      rewrite parse_chars_plain by assumption.
      now rewrite IH1.
    + rewrite <- app_assoc, parse_chars_escape_char.
      now rewrite IH2.
Qed.

(** ** JSON numbers: parse_number reads back Number::toString *)

Lemma normal_zero (d : decimal) :
  normal d = true -> mant d = 0 -> d = Dec 0 0.
Proof.
  destruct d as [m [|k]]; unfold normal; cbn [mant scale].
  - now intros _ ->.
  - intros H ->. discriminate.
Qed.

Lemma Number_toString_negative (m : Z) (k : nat) :
  m < 0 ->
  Number_toString (Fin (Dec m k))
  = 45%N :: Number_toString (Fin (Dec (- m) k)).
Proof.
  intros H. unfold Number_toString. cbn [mant scale].
  replace (m =? 0) with false by (symmetry; apply Z.eqb_neq; lia).
  replace (- m =? 0) with false by (symmetry; apply Z.eqb_neq; lia).
  replace (m <? 0) with true by (symmetry; apply Z.ltb_lt; lia).
  replace (- m <? 0) with false by (symmetry; apply Z.ltb_ge; lia).
  rewrite Z.abs_opp. reflexivity.
Qed.

Lemma denotes_head (text : jsstring) (m : Z) (k : nat) :
  denotes text m k -> exists c t, text = c :: t /\ is_digit c = true.
Proof.
  intros [ip [fp [E [Ht [Hip [[c [r [Hc _]]] _]]]]]].
  subst text ip. exists c, (r ++ frac_text fp ++ exp_text E).
  split; [reflexivity | now inversion Hip].
Qed.

Lemma parse_number_denotes (text rest : jsstring) (m : Z) (k : nat) :
  denotes text m k -> delimited rest ->
  parse_number (text ++ rest) = Some (Fin (normalize m k), rest).
Proof.
  intros Hden Hrest.
  destruct (denotes_head _ _ _ Hden) as [c [t [Hhd Hc]]].
  destruct Hden as [ip [fp [E [Ht [Hip [[c' [r [Hc' Hz]]] [Hfp Hv]]]]]]].
  unfold parse_number. rewrite Hhd. cbn [app].
  apply is_digit_spec in Hc.
  replace (c =? 45)%N with false by (symmetry; apply N.eqb_neq; lia).
  change (c :: t ++ rest) with ((c :: t) ++ rest).
  rewrite <- Hhd, Ht, scan_literal_literal by assumption.
  assert (Hvalid : valid_int ip = true).
  { subst ip. cbn [valid_int]. destruct (c' =? 48)%N eqn:E0; [|reflexivity].
    apply N.eqb_eq in E0. now rewrite (Hz E0). }
  rewrite Hvalid. destruct fp; cbn [negb orb andb truthy]; now rewrite Hv.
Qed.

Lemma parse_number_zero (rest : jsstring) :
  delimited rest -> parse_number (48%N :: rest) = Some (Fin (Dec 0 0), rest).
Proof.
  intros Hrest. unfold parse_number.
  change (48 =? 45)%N with false. cbv iota.
  change (48%N :: rest) with (literal [48%N] [] None ++ rest).
  rewrite scan_literal_literal;
    [reflexivity | repeat constructor | constructor | assumption].
Qed.

Lemma parse_number_toString (d : decimal) (rest : jsstring) :
  normal d = true -> delimited rest ->
  parse_number (Number_toString (Fin d) ++ rest) = Some (Fin d, rest).
Proof.
  intros Hn Hrest.
  destruct (Z.lt_trichotomy (mant d) 0) as [Hneg|[Hz|Hpos]].
  - destruct d as [m k]. cbn [mant] in Hneg.
    rewrite Number_toString_negative by assumption.
    unfold parse_number. cbn [app]. change (45 =? 45)%N with true. cbv iota.
    assert (Hden : denotes (Number_toString (Fin (Dec (- m) k))) (- m) k).
    { apply (Number_toString_denotes (Dec (- m) k)). cbn. lia. }
    pose proof (parse_number_denotes _ rest _ _ Hden Hrest) as P.
    destruct (denotes_head _ _ _ Hden) as [c [t [Hhd Hc]]].
    unfold parse_number in P. rewrite Hhd in P |- *. cbn [app] in P |- *.
    apply is_digit_spec in Hc.
    replace (c =? 45)%N with false in P
      by (symmetry; apply N.eqb_neq; lia).
    destruct (scan_literal (c :: t ++ rest)) as [[[[ip dot] fp] e] r].
    destruct (valid_int ip && (negb dot || truthy fp)); [|discriminate].
    injection P as P1 P2. rewrite P1, P2, normalize_opp, Z.opp_involutive.
    pose proof (normalize_id (Dec m k) Hn) as Hid. cbn [mant scale] in Hid.
    now rewrite Hid.
  - rewrite (normal_zero d Hn Hz).
    change (Number_toString (Fin (Dec 0 0)) ++ rest) with (48%N :: rest).
    now apply parse_number_zero.
  - rewrite (parse_number_denotes _ rest (mant d) (scale d));
      [now rewrite normalize_id | now apply Number_toString_denotes
       | assumption].
Qed.

Lemma Number_toString_head (d : decimal) :
  normal d = true ->
  exists c t, Number_toString (Fin d) = c :: t
              /\ (is_digit c = true \/ c = 45%N).
Proof.
  intros Hn.
  destruct (Z.lt_trichotomy (mant d) 0) as [Hneg|[Hz|Hpos]].
  - destruct d as [m k]. cbn [mant] in Hneg.
    rewrite Number_toString_negative by assumption. eauto.
  - rewrite (normal_zero d Hn Hz). exists 48%N, []. split; [reflexivity|].
    now left.
  - destruct (denotes_head _ _ _ (Number_toString_denotes d Hpos))
      as [c [t [H1 H2]]]. eauto.
Qed.

(** ** JSON values: JSON.parse reads back JSON.stringify *)

Lemma json_induction (P : json -> Prop) :
  P JNull ->
  (forall b, P (JBool b)) ->
  (forall n, P (JNumber n)) ->
  (forall s, P (JString s)) ->
  (forall items, Forall P items -> P (JArray items)) ->
  (forall members, Forall (fun m => P (snd m)) members -> P (JObject members)) ->
  forall v, P v.
Proof.
  intros Hnull Hbool Hnum Hstr Harr Hobj.
  fix IH 1. intros [ | b | n | s | items | members ].
  - exact Hnull.
  - apply Hbool.
  - apply Hnum.
  - apply Hstr.
  - apply Harr. revert items. fix IHitems 1.
    intros [|x items]; constructor; [apply IH | apply IHitems].
  - apply Hobj. revert members. fix IHmembers 1.
    intros [|m members]; constructor; [apply IH | apply IHmembers].
Qed.

Lemma distinct_NoDup (keys : list jsstring) :
  distinct keys = true <-> NoDup keys.
Proof.
  induction keys as [|k ks IH]; cbn [distinct].
  - split; [constructor | reflexivity].
  - rewrite andb_true_iff, negb_true_iff, IH, NoDup_cons_iff.
    rewrite <- not_true_iff_false, existsb_str_eqb. reflexivity.
Qed.

Lemma obj_set_fresh (acc : list (jsstring * json)) (k : jsstring) (v : json) :
  ~ In k (map fst acc) -> obj_set acc k v = acc ++ [(k, v)].
Proof.
  induction acc as [|[k' v'] acc IH]; cbn [obj_set map fst In app];
    [reflexivity|].
  intros H. destruct (str_eqb k' k) eqn:E.
  - apply str_eqb_eq in E. exfalso. apply H. now left.
  - f_equal. apply IH. intros Hin. apply H. now right.
Qed.

Lemma join_comma_cons (p : jsstring) (ps : list jsstring) (rest : jsstring) :
  join_comma (p :: ps) ++ rest
  = p ++ match ps with
         | [] => rest
         | _ :: _ => 44%N :: join_comma ps ++ rest
         end.
Proof.
  destruct ps as [|q ps]; [reflexivity|].
  cbn [join_comma]. now rewrite <- app_assoc.
Qed.

Lemma skip_ws_head (c : N) (t : jsstring) :
  is_json_ws c = false -> skip_ws (c :: t) = c :: t.
Proof. intros H. cbn [skip_ws]. now rewrite H. Qed.

Lemma digit_opens_value (c : N) :
  is_digit c = true \/ c = 45%N -> opens_value c.
Proof.
  intros H. assert (R : (45 <= c <= 57)%N).
  { destruct H as [H| ->]; [apply is_digit_spec in H|]; lia. }
  unfold opens_value, is_json_ws.
  repeat match goal with
         | |- context [(c =? ?b)%N] =>
             replace (c =? b)%N with false by (symmetry; apply N.eqb_neq; lia)
         end.
  repeat split; lia.
Qed.

Lemma JSON_stringify_head (v : json) :
  wf_json v = true ->
  exists c t, JSON_stringify v = c :: t /\ opens_value c.
Proof.
  destruct v as [ | [|] | [| |d] | s | items | members ]; cbn [wf_json wf_number];
    intros Hwf; try discriminate;
    try (eexists _, _; split; [reflexivity|];
         unfold opens_value; cbn; repeat split; discriminate).
  destruct (Number_toString_head d Hwf) as [c [t [H1 H2]]].
  exists c, t. split; [exact H1 | now apply digit_opens_value].
Qed.

Lemma parse_value_number (fuel : nat) (c : N) (t : jsstring) :
  is_digit c = true \/ c = 45%N ->
  parse_value (S fuel) (c :: t)
  = match parse_number (c :: t) with
    | Some (n, rest) => Parsed (JNumber n) rest
    | None => SyntaxError
    end.
Proof.
  intros H. destruct (digit_opens_value c H) as [Hws _].
  assert (R : (45 <= c <= 57)%N).
  { destruct H as [H| ->]; [apply is_digit_spec in H|]; lia. }
  cbn [parse_value]. rewrite (skip_ws_head c t Hws).
  repeat match goal with
         | |- context [(c =? ?b)%N] =>
             replace (c =? b)%N with false by (symmetry; apply N.eqb_neq; lia)
         end.
  reflexivity.
Qed.

Lemma delimited_separator (c : N) (t : jsstring) :
  c = 44%N \/ c = 93%N \/ c = 125%N -> delimited (c :: t).
Proof. intros [-> | [-> | ->]]; cbn; repeat split; discriminate. Qed.

Lemma parse_items_join (items : list json) :
  Forall reads_back items -> items <> [] ->
  forall fuel acc rest,
    (fold_right (fun x n => S (cost x + n)) 0 items <= fuel)%nat ->
    parse_items fuel (join_comma (map JSON_stringify items) ++ 93%N :: rest) acc
    = Parsed (JArray (acc ++ items)) rest.
Proof.
  induction 1 as [|v vs Hv Hvs IH]; [congruence|].
  intros _ fuel acc rest Hfuel. cbn [fold_right] in Hfuel.
  destruct fuel as [|fuel]; [lia|].
  cbn [map]. rewrite join_comma_cons. cbn [parse_items].
  destruct vs as [|w vs].
  - cbn [map]. rewrite (Hv fuel (93%N :: rest));
      [|lia | apply delimited_separator; auto].
    reflexivity.
  - cbn [map]. rewrite (Hv fuel); [|lia | apply delimited_separator; auto].
    rewrite skip_ws_head by reflexivity.
    change (44 =? 44)%N with true. cbv iota.
    change (JSON_stringify w :: map JSON_stringify vs)
      with (map JSON_stringify (w :: vs)).
    rewrite IH; [|discriminate | cbn [fold_right] in *; lia].
    now rewrite <- app_assoc.
Qed.

Lemma parse_members_join (members : list (jsstring * json)) :
  Forall (fun m => reads_back (snd m)) members -> members <> [] ->
  forall fuel acc rest,
    NoDup (map fst acc ++ map fst members) ->
    (fold_right (fun m n => S (cost (snd m) + n)) 0 members <= fuel)%nat ->
    parse_members fuel
      (join_comma (map member_text members) ++ 125%N :: rest) acc
    = Parsed (JObject (acc ++ members)) rest.
Proof.
  induction 1 as [|[k v] ms Hv Hms IH]; [congruence|].
  intros _ fuel acc rest Hnd Hfuel. cbn [fold_right snd] in Hfuel.
  destruct fuel as [|fuel]; [lia|].
  cbn [map]. rewrite join_comma_cons.
  unfold member_text at 1, QuoteJSONString. cbn [fst snd].
  cbn [app parse_members]. rewrite skip_ws_head by reflexivity.
  change (34 =? 34)%N with true. cbv iota.
  rewrite <- !app_assoc. cbn [app].
  rewrite parse_chars_quote_chars, skip_ws_head by reflexivity.
  change (58 =? 58)%N with true. cbv iota.
  cbn [map fst] in Hnd.
  assert (Hfresh : obj_set acc k v = acc ++ [(k, v)]).
  { apply obj_set_fresh. now apply NoDup_remove_2 in Hnd as Hnin;
      intros Hin; apply Hnin, in_or_app; left. }
  cbn [snd] in Hv.
  destruct ms as [|m ms].
  - cbn [map]. rewrite (Hv fuel (125%N :: rest));
      [|lia | apply delimited_separator; auto].
    rewrite skip_ws_head by reflexivity.
    change (125 =? 44)%N with false. change (125 =? 125)%N with true.
    cbv iota. now rewrite Hfresh.
  - cbn [map]. rewrite (Hv fuel); [|lia | apply delimited_separator; auto].
    rewrite skip_ws_head by reflexivity.
    change (44 =? 44)%N with true. cbv iota.
    change (member_text m :: map member_text ms)
      with (map member_text (m :: ms)).
    rewrite Hfresh, IH; [|discriminate | | cbn [fold_right] in *; lia].
    + now rewrite <- app_assoc.
    + rewrite map_app, <- app_assoc. exact Hnd.
Qed.

Lemma forallb_Forall_and {A : Type} (f : A -> bool) (P : A -> Prop)
    (l : list A) :
  Forall (fun x => f x = true -> P x) l -> forallb f l = true -> Forall P l.
Proof.
  induction 1 as [|x l Hx Hl IH]; cbn [forallb]; [constructor|].
  intros H. apply andb_prop in H as [H1 H2]. constructor; auto.
Qed.

Theorem parse_value_stringify (v : json) : wf_json v = true -> reads_back v.
Proof.
  induction v as [ | b | n | s | items IH | members IH ] using json_induction;
    intros Hwf fuel rest Hfuel Hrest.
  - destruct fuel; [cbn in Hfuel; lia | reflexivity].
  - destruct fuel; [cbn in Hfuel; lia | destruct b; reflexivity].
  - destruct n as [| |d]; try discriminate. cbn [wf_json wf_number] in Hwf.
    destruct fuel; [cbn in Hfuel; lia|].
    cbn [JSON_stringify is_finite].
    destruct (Number_toString_head d Hwf) as [c [t [H1 H2]]].
    rewrite H1. cbn [app]. rewrite parse_value_number by assumption.
    change (c :: t ++ rest) with ((c :: t) ++ rest).
    now rewrite <- H1, parse_number_toString.
  - destruct fuel; [cbn in Hfuel; lia|].
    cbn [JSON_stringify]. unfold QuoteJSONString.
    cbn [app parse_value]. rewrite skip_ws_head by reflexivity.
    change (34 =? 34)%N with true. cbv iota.
    rewrite <- app_assoc. cbn [app].
    now rewrite parse_chars_quote_chars.
  - cbn [wf_json] in Hwf. cbn [cost] in Hfuel.
    destruct fuel as [|fuel]; [lia|].
    destruct items as [|x items]; [reflexivity|].
    assert (Hall : Forall reads_back (x :: items))
      by (eapply forallb_Forall_and; eassumption).
    change (JSON_stringify (JArray (x :: items)) ++ rest)
      with (91%N :: (join_comma (map JSON_stringify (x :: items)) ++ [93%N])
                    ++ rest).
    rewrite <- app_assoc. cbn [app parse_value].
    rewrite skip_ws_head by reflexivity.
    change (91 =? 34)%N with false. change (91 =? 91)%N with true.
    cbv iota.
    assert (Hhead : exists c t,
               join_comma (map JSON_stringify (x :: items)) ++ 93%N :: rest
               = c :: t /\ opens_value c).
    { cbn [forallb] in Hwf. apply andb_prop in Hwf as [Hx _].
      destruct (JSON_stringify_head x Hx) as [c [t [H1 H2]]].
      cbn [map]. rewrite join_comma_cons, H1. cbn [app]. eauto. }
    destruct Hhead as [c [t [H1 [Hws [Hc _]]]]].
    rewrite H1 at 1. rewrite (skip_ws_head c t Hws).
    apply N.eqb_neq in Hc. rewrite Hc.
    apply (parse_items_join (x :: items) Hall);
      [discriminate | lia].
  - cbn [wf_json] in Hwf. apply andb_prop in Hwf as [Hkeys Hwf].
    cbn [cost] in Hfuel.
    destruct fuel as [|fuel]; [lia|].
    destruct members as [|m members]; [reflexivity|].
    assert (Hall : Forall (fun m => reads_back (snd m)) (m :: members)).
    { apply (forallb_Forall_and (fun m => wf_json (snd m))
               (fun m => reads_back (snd m))); assumption. }
    change (JSON_stringify (JObject (m :: members)) ++ rest)
      with (123%N :: (join_comma (map member_text (m :: members)) ++ [125%N])
                     ++ rest).
    rewrite <- app_assoc. cbn [app parse_value].
    rewrite skip_ws_head by reflexivity.
    change (123 =? 34)%N with false. change (123 =? 91)%N with false.
    change (123 =? 123)%N with true. cbv iota.
    cbn [map]. rewrite join_comma_cons.
    unfold member_text at 1, QuoteJSONString. cbn [app].
    rewrite skip_ws_head by reflexivity.
    change (34 =? 125)%N with false. cbv iota.
    change (34%N :: (quote_chars (fst m) ++ [34%N]) ++ 58%N :: JSON_stringify (snd m))
      with (member_text m).
    rewrite <- join_comma_cons.
    apply (parse_members_join (m :: members) Hall);
      [discriminate | | lia].
    cbn [map app]. now apply distinct_NoDup.
Qed.

Lemma join_comma_length (p : jsstring) (ps : list jsstring) :
  length (join_comma (p :: ps))
  = (length p + match ps with
                | [] => 0
                | _ :: _ => S (length (join_comma ps))
                end)%nat.
Proof.
  destruct ps as [|q ps]; cbn [join_comma]; [lia|].
  rewrite length_app. reflexivity.
Qed.

Lemma cost_join {A : Type} (text : A -> jsstring) (c : A -> nat) (l : list A) :
  Forall (fun x => (c x <= 2 * length (text x) + 1)%nat) l ->
  (fold_right (fun x n => S (c x + n)) 0 l
   <= 2 * length (join_comma (map text l)) + 2)%nat.
Proof.
  induction 1 as [|x l Hx Hl IH]; [cbn; lia|].
  cbn [fold_right map]. rewrite join_comma_length.
  destruct l as [|y l]; [cbn [fold_right]; lia|].
  cbn [map] in *. lia.
Qed.

Lemma cost_bound (v : json) : (cost v <= 2 * length (JSON_stringify v) + 1)%nat.
Proof.
  induction v as [ | b | n | s | items IH | members IH ] using json_induction;
    try (cbn [cost]; lia).
  - pose proof (cost_join JSON_stringify cost items IH) as B.
    change (cost (JArray items))
      with (S (fold_right (fun x n => S (cost x + n)) 0%nat items)).
    change (JSON_stringify (JArray items))
      with (91%N :: join_comma (map JSON_stringify items) ++ [93%N]).
    cbn [length]. rewrite length_app. cbn [length]. lia.
  - assert (IH' : Forall (fun m => (cost (snd m)
                                    <= 2 * length (member_text m) + 1)%nat)
                         members).
    { eapply Forall_impl; [|exact IH]. intros m Hm. cbv beta in Hm.
      unfold member_text. rewrite length_app. cbn [length]. lia. }
    pose proof (cost_join member_text (fun m => cost (snd m)) members IH') as B.
    change (cost (JObject members))
      with (S (fold_right (fun m n => S (cost (snd m) + n)) 0%nat members)).
    change (JSON_stringify (JObject members))
      with (123%N :: join_comma (map member_text members) ++ [125%N]).
    cbn [length]. rewrite length_app. cbn [length]. lia.
Qed.

(** JSON.parse inverts JSON.stringify on every value that JSON can hold. *)
Theorem JSON_parse_stringify (v : json) :
  wf_json v = true -> JSON_parse (JSON_stringify v) = Some v.
Proof.
  intros Hwf. unfold JSON_parse.
  pose proof (cost_bound v) as B.
  rewrite <- (app_nil_r (JSON_stringify v)) at 2.
  rewrite (parse_value_stringify v Hwf); [reflexivity | lia | exact I].
Qed.

(** ** JSON.parse never runs out of fuel *)

Lemma skip_ws_length (s : jsstring) : (length (skip_ws s) <= length s)%nat.
Proof.
  induction s as [|c s IH]; cbn [skip_ws]; [lia|].
  destruct (is_json_ws c); cbn [length]; lia.
Qed.

Lemma skip_ws_cons_length (s r : jsstring) (c : N) :
  skip_ws s = c :: r -> (length r < length s)%nat.
Proof.
  intros H. pose proof (skip_ws_length s) as L. rewrite H in L.
  cbn [length] in L. lia.
Qed.

Lemma span_digits_length (s : jsstring) :
  (length (snd (span_digits s)) <= length s)%nat.
Proof.
  induction s as [|c s IH]; cbn [span_digits]; [cbn; lia|].
  destruct (is_digit c); [|cbn; lia].
  destruct (span_digits s) as [ds rest]. cbn [snd length] in *. lia.
Qed.

Lemma scan_literal_length (s : jsstring) :
  (length (snd (scan_literal s)) <= length s)%nat.
Proof.
  unfold scan_literal.
  pose proof (span_digits_length s) as L1.
  destruct (span_digits s) as [ip s1]. cbn [snd] in L1.
  assert (L2 : (length (snd (scan_fraction s1)) <= length s1)%nat).
  { unfold scan_fraction. destruct s1 as [|c r]; [cbn; lia|].
    destruct (c =? 46)%N; [|cbn; lia].
    pose proof (span_digits_length r) as L.
    destruct (span_digits r) as [ds rest]. cbn [snd length] in *. lia. }
  destruct (scan_fraction s1) as [[dot fp] s2]. cbn [snd] in L2.
  assert (L3 : forall e s3, scan_exponent s2 = Some (e, s3) ->
                            (length s3 <= length s2)%nat).
  { intros e s3. unfold scan_exponent. destruct s2 as [|c r]; [discriminate|].
    destruct ((c =? 101) || (c =? 69))%N; [|discriminate].
    destruct r as [|d r'].
    - cbn. discriminate.
    - destruct (d =? 45)%N; [|destruct (d =? 43)%N].
      + pose proof (span_digits_length r') as L'.
        destruct (span_digits r') as [[|x ds] rest]; [discriminate|].
        intros E. injection E as _ <-. cbn [snd length] in *. lia.
      + pose proof (span_digits_length r') as L'.
        destruct (span_digits r') as [[|x ds] rest]; [discriminate|].
        intros E. injection E as _ <-. cbn [snd length] in *. lia.
      + pose proof (span_digits_length (d :: r')) as L'.
        destruct (span_digits (d :: r')) as [[|x ds] rest]; [discriminate|].
        intros E. injection E as _ <-. cbn [snd length] in *. lia. }
  destruct (scan_exponent s2) as [[e s3]|] eqn:E; cbn [snd].
  - specialize (L3 e s3 eq_refl). lia.
  - lia.
Qed.

Lemma parse_number_length (s rest : jsstring) (n : number) :
  parse_number s = Some (n, rest) -> (length rest <= length s)%nat.
Proof.
  unfold parse_number.
  assert (H : forall s0 neg,
              (length s0 <= length s)%nat ->
              (let '(ip, dot, fp, e, rest0) := scan_literal s0 in
               if valid_int ip && (negb dot || truthy fp)
               then
                 let d := decimal_of_parts ip fp (nullish e 0) in
                 Some (Fin (if neg : bool then dec_opp d else d), rest0)
               else None) = Some (n, rest) ->
              (length rest <= length s)%nat).
  { intros s0 neg Hs0. pose proof (scan_literal_length s0) as L.
    destruct (scan_literal s0) as [[[[ip dot] fp] e] rest0]. cbn [snd] in L.
    destruct (valid_int ip && (negb dot || truthy fp)); [|discriminate].
    intros E. injection E as _ <-. lia. }
  destruct s as [|c r].
  - apply (H [] false). lia.
  - destruct (c =? 45)%N.
    + apply (H r true). cbn [length]. lia.
    + apply (H (c :: r) false). lia.
Qed.

Lemma parse_chars_length (s text rest : jsstring) :
  parse_chars s = Some (text, rest) -> (length rest < length s)%nat.
Proof.
  remember (length s) as n eqn:Hn.
  revert s text rest Hn.
  induction n as [n IH] using lt_wf_ind. intros s text rest Hn.
  assert (P : forall u t, (length t < n)%nat ->
              prepend u (parse_chars t) = Some (text, rest) ->
              (length rest < n)%nat).
  { intros u t Ht E. destruct (parse_chars t) as [[x r]|] eqn:Ep;
      [|discriminate].
    injection E as _ <-.
    pose proof (IH (length t) Ht t x r eq_refl Ep). lia. }
  destruct s as [|c r]; [discriminate|]. cbn [parse_chars length] in *.
  destruct (c =? 34)%N.
  { intros E. injection E as _ <-. lia. }
  destruct (c =? 92)%N.
  - destruct r as [|e r1]; [discriminate|].
    destruct (e =? 117)%N.
    + destruct r1 as [|h1 [|h2 [|h3 [|h4 r2]]]]; try discriminate.
      destruct (hex4 h1 h2 h3 h4); [|discriminate].
      apply P. cbn [length] in *. lia.
    + destruct (simple_escape e); [|discriminate].
      apply P. cbn [length] in *. lia.
  - destruct (c <? 32)%N; [discriminate|]. apply P. lia.
Qed.

Lemma keyword_length (word : string) (v w : json) (s rest : jsstring) :
  keyword word v s = Parsed w rest -> (length rest <= length s)%nat.
Proof.
  unfold keyword. destruct (starts_with (str word) s); [|discriminate].
  intros E. injection E as _ <-. rewrite length_skipn. lia.
Qed.

Ltac parser_facts :=
  repeat match goal with
         | H : skip_ws _ = _ :: _ |- _ => apply skip_ws_cons_length in H
         | H : parse_chars _ = Some _ |- _ => apply parse_chars_length in H
         | H : parse_number _ = Some _ |- _ => apply parse_number_length in H
         | H : keyword _ _ _ = Parsed _ _ |- _ => apply keyword_length in H
         end.

Ltac parser_cases :=
  repeat match goal with
         | |- context [match skip_ws ?s with _ => _ end] =>
             destruct (skip_ws s) eqn:?
         | |- context [match parse_chars ?s with _ => _ end] =>
             destruct (parse_chars s) as [[? ?]|] eqn:?
         | |- context [match parse_number ?s with _ => _ end] =>
             destruct (parse_number s) as [[? ?]|] eqn:?
         | |- context [if (?a =? ?b)%N then _ else _] =>
             destruct (a =? b)%N
         end.

Lemma parse_length (fuel : nat) :
  (forall s v rest,
      parse_value fuel s = Parsed v rest -> (length rest <= length s)%nat)
  /\ (forall s acc v rest,
        parse_items fuel s acc = Parsed v rest ->
        (length rest <= length s)%nat)
  /\ (forall s acc v rest,
        parse_members fuel s acc = Parsed v rest ->
        (length rest <= length s)%nat).
Proof.
  induction fuel as [|fuel [IHv [IHi IHm]]];
    [repeat split; discriminate|].
  split; [|split].
  - intros s v rest. cbn [parse_value]. parser_cases; intros E;
      try discriminate;
      try (injection E as _ <-); parser_facts;
      try (apply IHi in E); try (apply IHm in E);
      try (apply keyword_length in E);
      cbn [length] in *; lia.
  - intros s acc v rest. cbn [parse_items].
    destruct (parse_value fuel s) as [w r| |] eqn:Ev; try discriminate.
    apply IHv in Ev. parser_cases; intros E; try discriminate;
      try (injection E as _ <-); parser_facts; try (apply IHi in E);
      cbn [length] in *; lia.
  - intros s acc v rest. cbn [parse_members]. parser_cases;
      try discriminate.
    all: match goal with
         | |- context [parse_value ?f ?t] =>
             destruct (parse_value f t) as [w r| |] eqn:Ev;
             try discriminate; apply IHv in Ev
         end.
    all: parser_cases; intros E; try discriminate;
      try (injection E as _ <-); parser_facts; try (apply IHm in E);
      cbn [length] in *; lia.
Qed.

Lemma parse_fuel (fuel : nat) :
  (forall s, (2 * length s + 1 <= fuel)%nat -> parse_value fuel s <> OutOfFuel)
  /\ (forall s acc, (2 * length s + 2 <= fuel)%nat ->
                    parse_items fuel s acc <> OutOfFuel)
  /\ (forall s acc, (2 * length s + 2 <= fuel)%nat ->
                    parse_members fuel s acc <> OutOfFuel).
Proof.
  induction fuel as [|fuel [IHv [IHi IHm]]];
    [repeat split; intros; lia|].
  split; [|split].
  - intros s Hs. cbn [parse_value]. parser_cases; try discriminate;
      parser_facts;
      try (apply IHi; cbn [length] in *; lia);
      try (apply IHm; cbn [length] in *; lia).
    all: unfold keyword; destruct (starts_with _ _); discriminate.
  - intros s acc Hs. cbn [parse_items].
    destruct (parse_value fuel s) as [w r| |] eqn:Ev.
    + apply (proj1 (parse_length fuel)) in Ev.
      parser_cases; try discriminate; parser_facts.
      apply IHi. cbn [length] in *. lia.
    + discriminate.
    + exfalso. revert Ev. apply IHv. lia.
  - intros s acc Hs. cbn [parse_members]. parser_cases; try discriminate.
    all: match goal with
         | |- context [parse_value ?f ?t] =>
             destruct (parse_value f t) as [w r| |] eqn:Ev
         end.
    + apply (proj1 (parse_length fuel)) in Ev.
      parser_cases; try discriminate; parser_facts.
      apply IHm. cbn [length] in *. lia.
    + discriminate.
    + exfalso. revert Ev. apply IHv. parser_facts. cbn [length] in *. lia.
Qed.

(** [JSON_parse] answers [None] only for a text that is not JSON: the fuel
    it runs with is never used up. *)
Theorem JSON_parse_fuel (text : jsstring) :
  parse_value (2 * length text + 2) text <> OutOfFuel.
Proof. apply (proj1 (parse_fuel _)). lia. Qed.

(** ** Persistence *)

Lemma as_Expense_to_json (e : Expense) : as_Expense (to_json e) = Some e.
Proof. destruct e as [i d c a [n|]]; reflexivity. Qed.

Lemma as_Expenses_to_json (records : list Expense) :
  as_Expenses (map to_json records) = Some records.
Proof.
  induction records as [|e l IH]; [reflexivity|].
  cbn [map as_Expenses]. now rewrite as_Expense_to_json, IH.
Qed.

Lemma wf_to_json (e : Expense) :
  wf_json (to_json e) = wf_number (Expense.amount e).
Proof.
  destruct e as [i d c a [n|]]; cbn [to_json wf_json Expense.amount];
    cbn; now rewrite ?andb_true_r.
Qed.

Lemma JSON_stringify_array_truthy (items : list json) :
  truthy (JSON_stringify (JArray items)) = true.
Proof. reflexivity. Qed.

Lemma load_stored (quota : option nat) (records : list Expense) :
  Forall (fun e => wf_number (Expense.amount e) = true) records ->
  load (Store quota (Some (JSON_stringify (JArray (map to_json records)))))
  = map to_json records.
Proof.
  intros Hwf. unfold load. cbn [getItem].
  rewrite JSON_stringify_array_truthy, JSON_parse_stringify; [reflexivity|].
  cbn [wf_json]. apply forallb_forall. intros v Hv.
  apply in_map_iff in Hv as [e [<- He]]. rewrite wf_to_json.
  now apply (proj1 (Forall_forall _ _) Hwf).
Qed.

(** The persist effect, when the storage takes the write, leaves the text
    of the collection in the slot. *)
Lemma save_accepted (quota : option nat) (slot : option jsstring)
    (records : list Expense) :
  match quota with
  | Some q => (length (JSON_stringify (JArray (map to_json records))) <= q)%nat
  | None => True
  end ->
  save (Store quota slot) records
  = Store quota (Some (JSON_stringify (JArray (map to_json records)))).
Proof.
  intros Hq. unfold save, setItem. destruct quota as [q|]; [|reflexivity].
  apply Nat.leb_le in Hq. now rewrite Hq.
Qed.

Lemma JSON_stringify_stored (e : Expense) :
  JSON_stringify (stored e) = JSON_stringify (to_json e).
Proof.
  unfold stored, to_json.
  destruct (is_finite (Expense.amount e)) eqn:E; [reflexivity|].
  cbn [JSON_stringify app map fst snd]. now rewrite E.
Qed.

Lemma wf_stored (e : Expense) :
  storable (Expense.amount e) = true -> wf_json (stored e) = true.
Proof.
  destruct e as [i d c a [n|]]; unfold stored; cbn [Expense.amount Expense.id
    Expense.date Expense.category Expense.note];
    destruct a as [|b|x]; cbn; intros H; rewrite ?H; reflexivity.
Qed.

Lemma load_written (quota : option nat) (records : list Expense) :
  Forall (fun e => storable (Expense.amount e) = true) records ->
  load (Store quota (Some (JSON_stringify (JArray (map to_json records)))))
  = map stored records.
Proof.
  intros Hs. unfold load. cbn [getItem]. rewrite JSON_stringify_array_truthy.
  assert (E : JSON_stringify (JArray (map to_json records))
              = JSON_stringify (JArray (map stored records))).
  { cbn [JSON_stringify]. rewrite !map_map. do 3 f_equal.
    apply map_ext. intros e. symmetry. apply JSON_stringify_stored. }
  rewrite E, JSON_parse_stringify; [reflexivity|].
  cbn [wf_json]. apply forallb_forall. intros v Hv.
  apply in_map_iff in Hv as [e [<- He]]. apply wf_stored.
  now apply (proj1 (Forall_forall _ _) Hs).
Qed.

(** C1. Round trip of the persistence effects: for a collection whose
    amounts are finite numbers, and a write that the storage accepts,
    loading after saving yields the records that were saved, value for
    value and in the same order; the empty collection included. *)
Theorem load_save_roundtrip (quota : option nat) (slot : option jsstring)
    (records : list Expense) :
  Forall (fun e => wf_number (Expense.amount e) = true) records ->
  match quota with
  | Some q => (length (JSON_stringify (JArray (map to_json records))) <= q)%nat
  | None => True
  end ->
  load (save (Store quota slot) records) = map to_json records
  /\ as_Expenses (load (save (Store quota slot) records)) = Some records.
Proof.
  intros Hwf Hq.
  rewrite (save_accepted quota slot records Hq).
  rewrite (load_stored quota records Hwf).
  split; [reflexivity | apply as_Expenses_to_json].
Qed.

Lemma load_save_roundtrip_witness :
  as_Expenses (load (save (Store (Some 5000%nat) None)
                          [sample_food; sample_rent]))
  = Some [sample_food; sample_rent]
  /\ as_Expenses (load (save (Store None (Some (str "stale"))) [])) = Some [].
Proof.
  split.
  - apply (load_save_roundtrip (Some 5000%nat) None [sample_food; sample_rent]).
    + repeat constructor.
    + apply Nat.leb_le. vm_compute. reflexivity.
  - apply (load_save_roundtrip None (Some (str "stale")) []).
    + constructor.
    + exact I.
Defined.

(** C6. Whenever the slot cannot be read, is missing, holds the empty
    string, holds text that is not JSON, or holds JSON that is not an
    array, the load effect leaves the collection empty; it has no other
    outcome (the function is total). *)
Theorem load_corrupt (st : storage) :
  getItem st = None
  \/ getItem st = Some None
  \/ getItem st = Some (Some [])
  \/ (exists raw, getItem st = Some (Some raw) /\ JSON_parse raw = None)
  \/ (exists raw v, getItem st = Some (Some raw)
                    /\ JSON_parse raw = Some v
                    /\ forall items, v <> JArray items) ->
  load st = [].
Proof.
  unfold load.
  intros [H|[H|[H|[[raw [H P]]|[raw [v [H [P A]]]]]]]]; rewrite H;
    try reflexivity.
  - rewrite P. now destruct (truthy raw).
  - rewrite P. destruct (truthy raw); [|reflexivity].
    destruct v; try reflexivity. now destruct (A items).
Qed.

Lemma load_corrupt_witness :
  load Blocked = []
  /\ load (Store None None) = []
  /\ load (Store None (Some [])) = []
  /\ load (Store None (Some (str "{oops"))) = []
  /\ load (Store None (Some (str "{}"))) = [].
Proof.
  split; [|split; [|split; [|split]]]; apply load_corrupt.
  - left. reflexivity.
  - right. left. reflexivity.
  - right. right. left. reflexivity.
  - right. right. right. left. exists (str "{oops").
    split; [reflexivity | vm_compute; reflexivity].
  - right. right. right. right. exists (str "{}"), (JObject []).
    split; [reflexivity|]. split; [vm_compute; reflexivity | discriminate].
Defined.

(** ** The invariant amount > 0 *)

(** C2, as stated, fails twice: a collection the component can hold has a
    record whose amount is not greater than zero.  The add handler tests
    the parsed amount and stores the rounded one: starting from the empty
    collection, 0.004 passes the test and is stored as 0.  The load effect
    checks nothing: a stored record with amount -5 enters the
    collection. *)
Lemma amount_invariant_counterexample :
  (held (Home.expenses
           (addExpense 1762000000000 (str "0.4fzyo82mvyr")
              (form [] "0.004" "Food" "2025-11-01" "")))
   /\ Home.expenses
        (addExpense 1762000000000 (str "0.4fzyo82mvyr")
           (form [] "0.004" "Food" "2025-11-01" ""))
      = [Expense.mk (str "1762000000000-4fzyo8") (str "2025-11-01")
                    (str "Food") zero None]
   /\ ~ positive_amounts
         (Home.expenses
            (addExpense 1762000000000 (str "0.4fzyo82mvyr")
               (form [] "0.004" "Food" "2025-11-01" ""))))
  /\ (held [Expense.mk (str "7-abc") (str "2025-11-01") (str "Food")
                       (Fin (Dec (-5) 0)) None]
      /\ as_Expenses (load (Store None (Some refund_slot)))
         = Some [Expense.mk (str "7-abc") (str "2025-11-01") (str "Food")
                            (Fin (Dec (-5) 0)) None]
      /\ ~ positive_amounts
            [Expense.mk (str "7-abc") (str "2025-11-01") (str "Food")
                        (Fin (Dec (-5) 0)) None]).
Proof.
  split; split.
  - apply (held_added _ _ (form [] "0.004" "Food" "2025-11-01" "")).
    apply held_initial.
  - split; [vm_compute; reflexivity|].
    intros H. apply Forall_inv in H. vm_compute in H. discriminate H.
  - apply (held_loaded (Store None (Some refund_slot))).
    vm_compute. reflexivity.
  - split; [vm_compute; reflexivity|].
    intros H. apply Forall_inv in H. vm_compute in H. discriminate H.
Qed.

Lemma removeExpense_positive (prev : list Expense) (i : jsstring) :
  positive_amounts prev -> positive_amounts (removeExpense prev i).
Proof.
  unfold positive_amounts, removeExpense. intros H.
  eapply incl_Forall; [apply incl_filter | exact H].
Qed.

Lemma round_scaled_positive (d : decimal) :
  pow10 (scale d) <= 200 * mant d -> 0 < round_scaled d 2.
Proof.
  intros H. unfold round_scaled. change (pow10 2) with 100.
  pose proof (pow10_pos (scale d)) as P.
  assert (1 <= (2 * mant d * 100 + pow10 (scale d)) / (2 * pow10 (scale d))).
  { apply Z.div_le_lower_bound; lia. }
  lia.
Qed.

(** A parsed amount of at least 0.005, [Infinity] included, is stored as
    an amount greater than zero. *)
Lemma newExpense_positive (now : Z) (random36 : jsstring) (x : number)
    (s : Home.state) :
  num_geb x (Fin (Dec 5 3)) = true ->
  num_gtb (Expense.amount (newExpense now random36 x s)) zero = true.
Proof.
  unfold newExpense. cbn [Expense.amount].
  destruct x as [|[]|d]; try discriminate; [reflexivity|].
  intros Hx.
  assert (Hd : pow10 (scale d) <= 200 * mant d).
  { unfold num_geb, num_leb in Hx. cbn [num_compare] in Hx.
    unfold dec_compare in Hx. cbn [mant scale] in Hx.
    change (pow10 3) with 1000 in Hx.
    destruct (Z.compare_spec (5 * pow10 (scale d)) (mant d * 1000));
      try discriminate; lia. }
  assert (Hm : 0 < mant d) by (pose proof (pow10_pos (scale d)); lia).
  apply positive_Fin in Hm as Hpos.
  destruct (Z.lt_ge_cases (mant d) (10 ^ 21 * pow10 (scale d))) as [Hlt|Hge].
  - rewrite stored_amount by (assumption || now left).
    apply positive_Fin.
    pose proof (normalize_sign (round_scaled d 2) 2) as Hs.
    pose proof (round_scaled_positive d Hd) as Hn.
    apply Z.compare_lt_iff in Hn. rewrite <- Hs in Hn.
    now apply Z.compare_lt_iff in Hn.
  - unfold toFixed.
    replace (mant d <? 0) with false by (symmetry; apply Z.ltb_ge; lia).
    cbn [app mant scale]. rewrite Z.abs_eq by lia.
    replace (10 ^ 21 * pow10 (scale d) <=? mant d) with true
      by (symmetry; apply Z.leb_le; lia).
    rewrite parseFloat_toString by assumption.
    apply positive_Fin.
    pose proof (normalize_sign (mant d) (scale d)) as Hs.
    apply Z.compare_lt_iff in Hm. rewrite <- Hs in Hm.
    now apply Z.compare_lt_iff in Hm.
Qed.

Lemma addExpense_positive (now : Z) (random36 : jsstring) (s : Home.state) :
  positive_amounts (Home.expenses s) ->
  num_geb (parseFloat (Home.amount s)) (Fin (Dec 5 3)) = true ->
  positive_amounts (Home.expenses (addExpense now random36 s)).
Proof.
  intros Hinv Hx. unfold addExpense.
  destruct (Number_isNaN (parseFloat (Home.amount s))
            || num_leb (parseFloat (Home.amount s)) zero); [exact Hinv|].
  destruct (negb (truthy (Home.date s))); [exact Hinv|].
  cbn [Home.expenses]. constructor; [|exact Hinv].
  now apply newExpense_positive.
Qed.

(** C2, amended.  Removing a record keeps every amount greater than zero.
    Adding keeps every amount greater than zero when the parsed amount is
    at least 0.005, [Infinity] included.  Loading checks no amount.  After
    an accepted save it returns every record with its id, date, category
    and note as saved, the amount as saved when it is a finite number and
    [null] in its place when it is [NaN] or an infinity; so for a
    collection of finite amounts it returns the saved records unchanged,
    and every amount is greater than zero after the load exactly when
    that held for the collection that was saved. *)
Theorem amount_invariant_preserved :
  (forall prev i,
     positive_amounts prev -> positive_amounts (removeExpense prev i))
  /\ (forall now random36 s,
        positive_amounts (Home.expenses s) ->
        num_geb (parseFloat (Home.amount s)) (Fin (Dec 5 3)) = true ->
        positive_amounts (Home.expenses (addExpense now random36 s)))
  /\ (forall quota slot records,
        Forall (fun e => storable (Expense.amount e) = true) records ->
        match quota with
        | Some q =>
            (length (JSON_stringify (JArray (map to_json records))) <= q)%nat
        | None => True
        end ->
        load (save (Store quota slot) records) = map stored records)
  /\ (forall quota slot records,
        Forall (fun e => wf_number (Expense.amount e) = true) records ->
        match quota with
        | Some q =>
            (length (JSON_stringify (JArray (map to_json records))) <= q)%nat
        | None => True
        end ->
        as_Expenses (load (save (Store quota slot) records)) = Some records
        /\ (positive_amounts records <->
            forall l, as_Expenses (load (save (Store quota slot) records))
                      = Some l -> positive_amounts l)).
Proof.
  split; [exact removeExpense_positive|].
  split; [exact addExpense_positive|].
  split.
  { intros quota slot records Hs Hq.
    rewrite (save_accepted quota slot records Hq). now apply load_written. }
  intros quota slot records Hwf Hq.
  assert (H : as_Expenses (load (save (Store quota slot) records))
              = Some records).
  { rewrite (save_accepted quota slot records Hq).
    rewrite (load_stored quota records Hwf). apply as_Expenses_to_json. }
  split; [exact H|]. rewrite H. split.
  - intros Hp l E. now injection E as <-.
  - intros Hl. now apply Hl.
Qed.

Lemma amount_invariant_preserved_witness :
  positive_amounts (removeExpense [sample_food; sample_rent] (str "1-abc"))
  /\ positive_amounts
       (Home.expenses
          (addExpense 1762000000000 (str "0.4fzyo82mvyr")
             (form [sample_rent] "0.005" "Food" "2025-11-01" "")))
  /\ positive_amounts
       (Home.expenses
          (addExpense 1762000000000 (str "0.4fzyo82mvyr")
             (form [sample_rent] "Infinity" "Food" "2025-11-01" "")))
  /\ load (save (Store None None)
             [Expense.mk (str "1-abc") (str "2025-11-01") (str "Food")
                         (Infinity false) None])
     = [JObject [ (str "id", JString (str "1-abc"));
                  (str "date", JString (str "2025-11-01"));
                  (str "category", JString (str "Food"));
                  (str "amount", JNull) ]]
  /\ as_Expenses (load (save (Store None None) [sample_food; sample_rent]))
     = Some [sample_food; sample_rent].
Proof.
  destruct amount_invariant_preserved as [Hremove [Hadd [Hback Hload]]].
  assert (Hpos : positive_amounts [sample_food; sample_rent])
    by (repeat constructor).
  split; [|split; [|split; [|split]]].
  - apply Hremove. exact Hpos.
  - apply Hadd; [repeat constructor | reflexivity].
  - apply Hadd; [repeat constructor | reflexivity].
  - apply (Hback None None
             [Expense.mk (str "1-abc") (str "2025-11-01") (str "Food")
                         (Infinity false) None]);
      [repeat constructor | exact I].
  - apply Hload; [repeat constructor | exact I].
Defined.

(** ** Derived view: the ranking *)





(* ================================================================== *)
(** * Part III. Further properties of the component                    *)
(* ================================================================== *)

(** ** addExpense and removeExpense together *)

(** X1. Pressing Add twice adds at most one record: a successful add
    clears the amount text, which the next call rejects, and a rejected
    add changes nothing, so the next call is rejected for the same
    reason. *)
Theorem addExpense_twice (now1 now2 : Z) (r1 r2 : jsstring) (s : Home.state) :
  addExpense now2 r2 (addExpense now1 r1 s) = addExpense now1 r1 s.
Proof.
  unfold addExpense at 2 3.
  destruct (Number_isNaN (parseFloat (Home.amount s))
            || num_leb (parseFloat (Home.amount s)) zero) eqn:E1.
  - unfold addExpense. now rewrite E1.
  - destruct (negb (truthy (Home.date s))) eqn:E2.
    + unfold addExpense. now rewrite E1, E2.
    + reflexivity.
Qed.

Lemma removeExpense_cons (e : Expense) (l : list Expense) :
  removeExpense (e :: l) (Expense.id e) = removeExpense l (Expense.id e).
Proof. unfold removeExpense. cbn [filter]. now rewrite str_eqb_refl. Qed.

(** X2. Removing the id of the record that a successful add has just
    created removes that record together with every earlier record that
    carries the same id; when no earlier record carries it, the collection
    is back to what it was before the add. *)
Theorem addExpense_removeExpense (now : Z) (random36 : jsstring)
    (s : Home.state) :
  num_gtb (parseFloat (Home.amount s)) zero = true ->
  Home.date s <> [] ->
  removeExpense
    (Home.expenses (addExpense now random36 s))
    (Expense.id (newExpense now random36 (parseFloat (Home.amount s)) s))
  = removeExpense
      (Home.expenses s)
      (Expense.id (newExpense now random36 (parseFloat (Home.amount s)) s))
  /\ ((forall e, In e (Home.expenses s) ->
         Expense.id e
         <> Expense.id (newExpense now random36 (parseFloat (Home.amount s)) s))
      -> removeExpense
           (Home.expenses (addExpense now random36 s))
           (Expense.id (newExpense now random36 (parseFloat (Home.amount s)) s))
         = Home.expenses s).
Proof.
  intros Hpos Hdate.
  rewrite (addExpense_accepts now random36 s Hpos Hdate). cbn [Home.expenses].
  rewrite removeExpense_cons. split; [reflexivity|].
  apply removeExpense_absent.
Qed.

Lemma addExpense_removeExpense_witness :
  removeExpense
    (Home.expenses
       (addExpense 1762000000000 (str "0.4fzyo82mvyr")
          (form [sample_rent] "12.50" "Food" "2025-11-01" "")))
    (str "1762000000000-4fzyo8")
  = [sample_rent].
Proof.
  destruct (addExpense_removeExpense 1762000000000 (str "0.4fzyo82mvyr")
              (form [sample_rent] "12.50" "Food" "2025-11-01" ""))
    as [_ H]; [reflexivity | discriminate |].
  apply H. intros e [<-|[]]. vm_compute. discriminate.
Defined.

(** X3. With ids that are pairwise distinct, removing the id of a record
    of the collection takes out that record and nothing else: the records
    before it and after it stay, in their order. *)
Theorem removeExpense_one (prev : list Expense) (e : Expense) :
  NoDup (map Expense.id prev) -> In e prev ->
  exists before after,
    prev = before ++ e :: after
    /\ removeExpense prev (Expense.id e) = before ++ after.
Proof.
  induction prev as [|x prev IH]; intros Hnd Hin; [destruct Hin|].
  cbn [map] in Hnd. apply NoDup_cons_iff in Hnd as [Hx Hnd].
  destruct Hin as [->|Hin].
  - exists [], prev. split; [reflexivity|].
    rewrite removeExpense_cons. apply removeExpense_absent.
    intros y Hy E. apply Hx. rewrite <- E. now apply in_map.
  - destruct (IH Hnd Hin) as [before [after [E1 E2]]].
    exists (x :: before), after. split; [now rewrite E1|].
    unfold removeExpense in *. cbn [filter].
    assert (Hne : str_eqb (Expense.id x) (Expense.id e) = false).
    { apply str_eqb_neq. intros E. apply Hx. rewrite E. now apply in_map. }
    rewrite Hne. cbn [negb app]. now rewrite E2.
Qed.

Lemma removeExpense_one_witness :
  removeExpense [sample_food; sample_rent; sample_lunch] (str "2-xyz")
  = [sample_food; sample_lunch].
Proof.
  destruct (removeExpense_one [sample_food; sample_rent; sample_lunch]
              sample_rent) as [before [after [E1 E2]]].
  - repeat constructor; cbn; intuition discriminate.
  - right. now left.
  - reflexivity.
Defined.

(** ** The id of a new record *)

Lemma parse_unsigned_prefix (ip fp : jsstring) (E : option Z) (rest : jsstring) :
  all_digits ip -> ip <> [] -> all_digits fp -> delimited rest ->
  parse_unsigned (literal ip fp E ++ rest)
  = Fin (decimal_of_parts ip fp (nullish E 0)).
Proof.
  intros Hip Hne Hfp Hrest. unfold parse_unsigned.
  destruct ip as [|c ip]; [congruence|].
  assert (Hc : is_digit c = true) by now inversion Hip.
  change (literal (c :: ip) fp E ++ rest)
    with (c :: (ip ++ frac_text fp ++ exp_text E) ++ rest).
  rewrite starts_with_Infinity_digit by assumption.
  change (c :: (ip ++ frac_text fp ++ exp_text E) ++ rest)
    with (literal (c :: ip) fp E ++ rest).
  rewrite scan_literal_literal by assumption.
  reflexivity.
Qed.

Lemma parseFloat_digit (c : N) (t : jsstring) :
  is_digit c = true -> parseFloat (c :: t) = parse_unsigned (c :: t).
Proof.
  intros Hd. unfold parseFloat. cbn [trim_start].
  rewrite (digit_not_whitespace c Hd).
  apply is_digit_spec in Hd.
  replace (c =? 45)%N with false by (symmetry; apply N.eqb_neq; lia).
  replace (c =? 43)%N with false by (symmetry; apply N.eqb_neq; lia).
  reflexivity.
Qed.

(** [parseFloat] reads a literal and ignores what follows it. *)
Lemma parseFloat_prefix (ip fp : jsstring) (E : option Z) (rest : jsstring) :
  all_digits ip -> ip <> [] -> all_digits fp -> delimited rest ->
  parseFloat (literal ip fp E ++ rest)
  = Fin (decimal_of_parts ip fp (nullish E 0)).
Proof.
  intros Hip Hne Hfp Hrest.
  rewrite <- (parse_unsigned_prefix ip fp E rest) by assumption.
  destruct ip as [|c ip]; [congruence|].
  apply (parseFloat_digit c ((ip ++ frac_text fp ++ exp_text E) ++ rest)).
  now inversion Hip.
Qed.

Lemma parseFloat_denotes_prefix (text rest : jsstring) (m : Z) (k : nat) :
  denotes text m k -> delimited rest ->
  parseFloat (text ++ rest) = Fin (normalize m k).
Proof.
  intros [ip [fp [E [Ht [Hip [[c [r [Hc _]]] [Hfp Hv]]]]]]] Hrest.
  rewrite Ht, <- Hv. apply parseFloat_prefix; try assumption.
  subst ip. discriminate.
Qed.

(** The text of an id starts with the time it was made at. *)
Lemma parseFloat_id (n : Z) (t : jsstring) :
  parseFloat (Number_toString (Fin (Dec n 0)) ++ 45%N :: t) = Fin (Dec n 0).
Proof.
  assert (Hrest : delimited (45%N :: t)) by (repeat split; discriminate).
  destruct (Z.lt_trichotomy n 0) as [Hneg|[->|Hpos]].
  - rewrite Number_toString_negative by assumption.
    assert (Hden : denotes (Number_toString (Fin (Dec (- n) 0))) (- n) 0).
    { apply (Number_toString_denotes (Dec (- n) 0)). cbn. lia. }
    pose proof (parseFloat_denotes_prefix _ _ _ _ Hden Hrest) as P.
    destruct (denotes_head _ _ _ Hden) as [c [u [Hhd Hc]]].
    rewrite Hhd in P |- *. cbn [app] in P |- *.
    rewrite parseFloat_digit in P by assumption.
    unfold parseFloat. cbn [trim_start].
    change (is_whitespace 45) with false. cbv iota.
    change (45 =? 45)%N with true. cbv iota.
    rewrite P. cbn [normalize num_neg]. unfold dec_opp. cbn [mant scale].
    now rewrite Z.opp_involutive.
  - change (Number_toString (Fin (Dec 0 0)) ++ 45%N :: t)
      with (literal [48%N] [] None ++ 45%N :: t).
    rewrite parseFloat_prefix;
      [reflexivity | repeat constructor | discriminate | constructor
       | assumption].
  - apply (parseFloat_denotes_prefix _ _ n 0); [|assumption].
    now apply (Number_toString_denotes (Dec n 0)).
Qed.

(** X4. Two records made at different times ([Date.now()] values) have
    different ids, whatever [Math.random()] gave and whatever the form
    held. *)
Theorem newExpense_id_timestamp (now1 now2 : Z) (r1 r2 : jsstring)
    (x1 x2 : number) (s1 s2 : Home.state) :
  now1 <> now2 ->
  Expense.id (newExpense now1 r1 x1 s1) <> Expense.id (newExpense now2 r2 x2 s2).
Proof.
  intros Hne E. apply (f_equal parseFloat) in E.
  unfold newExpense in E. cbn [Expense.id] in E.
  change (str "-" ++ slice 2 8 r1) with (45%N :: slice 2 8 r1) in E.
  change (str "-" ++ slice 2 8 r2) with (45%N :: slice 2 8 r2) in E.
  rewrite !parseFloat_id in E. congruence.
Qed.

Lemma newExpense_id_timestamp_witness :
  Expense.id (newExpense 1762000000000 (str "0.4fzyo82mvyr") zero
                (form [] "1" "Food" "2025-11-01" ""))
  <> Expense.id (newExpense 1762000000001 (str "0.4fzyo82mvyr") zero
                   (form [] "1" "Food" "2025-11-01" "")).
Proof. apply newExpense_id_timestamp. discriminate. Defined.

(** ** The amount text *)

(** X5. [addExpense] reads the amount text up to the end of its leading
    decimal literal and ignores the rest: the collection that results is
    the one that results from the literal alone. *)
Theorem addExpense_reads_prefix (now : Z) (random36 : jsstring)
    (s : Home.state) (ip fp : jsstring) (E : option Z) (rest : jsstring) :
  all_digits ip -> ip <> [] -> all_digits fp -> delimited rest ->
  Home.amount s = literal ip fp E ++ rest ->
  Home.expenses (addExpense now random36 s)
  = Home.expenses
      (addExpense now random36
         {| Home.expenses := Home.expenses s;
            Home.amount := literal ip fp E;
            Home.category := Home.category s;
            Home.date := Home.date s;
            Home.note := Home.note s;
            Home.filterMonth := Home.filterMonth s |}).
Proof.
  intros Hip Hne Hfp Hrest Ha.
  assert (P1 : parseFloat (Home.amount s)
               = Fin (decimal_of_parts ip fp (nullish E 0)))
    by (rewrite Ha; now apply parseFloat_prefix).
  assert (P2 : parseFloat (literal ip fp E)
               = Fin (decimal_of_parts ip fp (nullish E 0))).
  { rewrite <- (app_nil_r (literal ip fp E)).
    apply parseFloat_prefix; assumption || exact I. }
  unfold addExpense, newExpense.
  cbn [Home.amount Home.date Home.expenses Home.category Home.note].
  rewrite P1, P2.
  destruct (Number_isNaN (Fin (decimal_of_parts ip fp (nullish E 0)))
            || num_leb (Fin (decimal_of_parts ip fp (nullish E 0))) zero);
    [reflexivity|].
  destruct (negb (truthy (Home.date s))); reflexivity.
Qed.

Lemma addExpense_reads_prefix_witness :
  map Expense.amount
    (Home.expenses (addExpense 1762000000000 (str "0.4fzyo82mvyr")
                      (form [] "1,50" "Food" "2025-11-01" "")))
  = [Fin (Dec 1 0)].
Proof.
  rewrite (addExpense_reads_prefix _ _ _ (str "1") [] None (str ",50")).
  - reflexivity.
  - repeat constructor.
  - discriminate.
  - constructor.
  - repeat split; discriminate.
  - reflexivity.
Defined.

(** ** Category and note of a new record *)

Lemma or_else_tidy (s : jsstring) :
  tidy (or_else (trim s) (str "Other")) = true
  /\ (or_else (trim s) (str "Other") = s <-> tidy s = true).
Proof.
  unfold or_else. destruct (truthy (trim s)) eqn:E.
  - apply truthy_nonempty in E. pose proof (trim_tidy s E) as T.
    split; [exact T|]. split.
    + intros H. now rewrite H in T.
    + apply tidy_trim.
  - split; [reflexivity|]. split.
    + intros <-. reflexivity.
    + intros H. rewrite (tidy_trim s H) in E.
      destruct s; [discriminate H | discriminate E].
Qed.

(** X6. The category of a record that [addExpense] builds is never empty
    and has no white space at either end, and it is the category text of
    the form exactly when that text is already such a string.  The same
    holds for the note whenever the record has one. *)
Theorem newExpense_tidy (now : Z) (random36 : jsstring) (x : number)
    (s : Home.state) :
  tidy (Expense.category (newExpense now random36 x s)) = true
  /\ (Expense.category (newExpense now random36 x s) = Home.category s
      <-> tidy (Home.category s) = true)
  /\ (forall n, Expense.note (newExpense now random36 x s) = Some n ->
                tidy n = true)
  /\ (Expense.note (newExpense now random36 x s) = Some (Home.note s)
      <-> tidy (Home.note s) = true).
Proof.
  unfold newExpense. cbn [Expense.category Expense.note].
  destruct (or_else_tidy (Home.category s)) as [C1 C2].
  split; [exact C1|]. split; [exact C2|].
  unfold or_undefined. destruct (truthy (trim (Home.note s))) eqn:E.
  - apply truthy_nonempty in E. pose proof (trim_tidy _ E) as T. split.
    + intros n H. now injection H as <-.
    + split.
      * intros H. injection H as H. now rewrite H in T.
      * intros H. now rewrite (tidy_trim _ H).
  - split; [discriminate|]. split; [discriminate|].
    intros H. rewrite (tidy_trim _ H) in E.
    destruct (Home.note s); [discriminate H | discriminate E].
Qed.

Lemma newExpense_tidy_witness :
  Expense.category
    (newExpense 1762000000000 (str "0.4fzyo82mvyr") (Fin (Dec 8 0))
       (form [] "8" "Food" "2025-11-02" " lunch "))
  = str "Food"
  /\ tidy (str "lunch") = true.
Proof.
  destruct (newExpense_tidy 1762000000000 (str "0.4fzyo82mvyr") (Fin (Dec 8 0))
              (form [] "8" "Food" "2025-11-02" " lunch "))
    as [_ [C [N _]]].
  split; [now apply C | now apply N].
Defined.

(** X7. Every category that the form offers is stored as it is: for a
    category of [DEFAULT_CATEGORIES] neither [trim] nor the fallback
    ["Other"] changes anything. *)
Theorem default_category_kept (now : Z) (random36 : jsstring) (x : number)
    (s : Home.state) :
  In (Home.category s) DEFAULT_CATEGORIES ->
  Expense.category (newExpense now random36 x s) = Home.category s.
Proof.
  intros Hin. unfold newExpense. cbn [Expense.category].
  apply or_else_tidy. unfold DEFAULT_CATEGORIES in Hin.
  repeat (destruct Hin as [<-|Hin]; [reflexivity|]). destruct Hin.
Qed.

Lemma default_category_kept_witness :
  Expense.category
    (newExpense 1762000000000 (str "0.4fzyo82mvyr") (Fin (Dec 40 0))
       (form [] "40" "Utilities" "2025-11-02" ""))
  = str "Utilities".
Proof.
  apply (default_category_kept 1762000000000 (str "0.4fzyo82mvyr")
           (Fin (Dec 40 0)) (form [] "40" "Utilities" "2025-11-02" "")).
  do 3 right. now left.
Defined.

(** ** The filtered view after add and remove *)

(** X8. After a successful add the filtered view is the previous view,
    with the new record in front of it when the filter is ["all"] or is
    the month of the form's date; under any other filter the new record
    is in the collection but not in the view. *)
Theorem addExpense_view (now : Z) (random36 : jsstring) (s : Home.state) :
  num_gtb (parseFloat (Home.amount s)) zero = true ->
  Home.date s <> [] ->
  filteredExpenses (Home.expenses (addExpense now random36 s))
                   (Home.filterMonth (addExpense now random36 s))
  = (if str_eqb (Home.filterMonth s) (str "all")
        || str_eqb (slice 0 7 (Home.date s)) (Home.filterMonth s)
     then [newExpense now random36 (parseFloat (Home.amount s)) s]
     else [])
    ++ filteredExpenses (Home.expenses s) (Home.filterMonth s).
Proof.
  intros Hpos Hdate.
  rewrite (addExpense_accepts now random36 s Hpos Hdate).
  cbn [Home.expenses Home.filterMonth]. unfold filteredExpenses.
  destruct (str_eqb (Home.filterMonth s) (str "all")); [reflexivity|].
  cbn [orb filter]. unfold month_of at 1, newExpense at 1.
  cbn [Expense.date].
  destruct (str_eqb (slice 0 7 (Home.date s)) (Home.filterMonth s));
    reflexivity.
Qed.

Lemma addExpense_view_witness :
  filteredExpenses
    (Home.expenses
       (addExpense 1762000000000 (str "0.4fzyo82mvyr")
          (Home.mk [sample_rent] (str "12.50") (str "Food") (str "2025-11-01")
                   [] (str "2025-10"))))
    (str "2025-10")
  = [sample_rent].
Proof.
  apply (addExpense_view 1762000000000 (str "0.4fzyo82mvyr")
           (Home.mk [sample_rent] (str "12.50") (str "Food") (str "2025-11-01")
                    [] (str "2025-10")));
    [reflexivity | discriminate].
Defined.

Lemma months_In (expenses : list Expense) (m : jsstring) :
  In m (months expenses) <-> exists e, In e expenses /\ month_of e = m.
Proof.
  unfold months. rewrite <- in_rev.
  assert (P := Array_sort_perm default_compare
                 (new_Set (map month_of expenses))).
  split.
  - intros H. apply (Permutation_in _ (Permutation_sym P)) in H.
    apply new_Set_In, in_map_iff in H as [e [He Hin]]. eauto.
  - intros [e [Hin He]]. apply (Permutation_in _ P).
    apply new_Set_In, in_map_iff. eauto.
Qed.

(** X9. Every month that the filter offers selects at least one record;
    and a filter other than ["all"] that selects a record is one of the
    months offered. *)
Theorem months_select (expenses : list Expense) (m : jsstring) :
  (In m (months expenses) -> filteredExpenses expenses m <> [])
  /\ (m <> str "all" ->
      filteredExpenses expenses m <> [] -> In m (months expenses)).
Proof.
  split.
  - intros H. apply months_In in H as [e [Hin He]].
    unfold filteredExpenses. destruct (str_eqb m (str "all")).
    + intros E. now rewrite E in Hin.
    + intros E.
      assert (H : In e (filter (fun e => str_eqb (month_of e) m) expenses)).
      { apply filter_In. split; [assumption|]. now apply str_eqb_eq. }
      now rewrite E in H.
  - intros Hall Hne. apply months_In. unfold filteredExpenses in Hne.
    apply str_eqb_neq in Hall. rewrite Hall in Hne.
    destruct (filter (fun e => str_eqb (month_of e) m) expenses)
      as [|e l] eqn:E; [congruence|].
    assert (H : In e (filter (fun e => str_eqb (month_of e) m) expenses))
      by (rewrite E; now left).
    apply filter_In in H as [Hin He]. apply str_eqb_eq in He. eauto.
Qed.

Lemma months_select_witness :
  filteredExpenses [sample_food; sample_rent; sample_lunch] (str "2025-10")
  <> []
  /\ In (str "2025-11") (months [sample_food; sample_rent; sample_lunch]).
Proof.
  destruct (months_select [sample_food; sample_rent; sample_lunch]
              (str "2025-10")) as [H _].
  destruct (months_select [sample_food; sample_rent; sample_lunch]
              (str "2025-11")) as [_ H'].
  split.
  - apply H. right. now left.
  - apply H'; discriminate.
Defined.

Lemma filter_swap {A : Type} (f g : A -> bool) (l : list A) :
  filter f (filter g l) = filter g (filter f l).
Proof.
  induction l as [|x l IH]; [reflexivity|]. cbn [filter].
  destruct (f x) eqn:Ef, (g x) eqn:Eg; cbn [filter];
    rewrite ?Ef, ?Eg, IH; reflexivity.
Qed.

(** X10. Removing a record and filtering by month commute: the view of the
    collection after a removal is the previous view without the records
    of that id. *)
Theorem filteredExpenses_removeExpense (expenses : list Expense)
    (m i : jsstring) :
  filteredExpenses (removeExpense expenses i) m
  = removeExpense (filteredExpenses expenses m) i.
Proof.
  unfold filteredExpenses, removeExpense.
  destruct (str_eqb m (str "all")); [reflexivity | apply filter_swap].
Qed.

(** ** Totals of amounts that are not negative *)

Lemma num_leb_Q (a b : decimal) :
  num_leb (Fin a) (Fin b) = true <-> (dec_Q a <= dec_Q b)%Q.
Proof.
  unfold num_leb. cbn [num_compare]. rewrite dec_compare_Q, Qle_alt.
  destruct (dec_Q a ?= dec_Q b)%Q; split; congruence.
Qed.

Lemma dec_Q_zero : (dec_Q dec_zero == 0)%Q.
Proof. reflexivity. Qed.

Lemma add_nonneg (x a : number) :
  num_geb x zero = true -> num_geb a zero = true ->
  num_geb (num_add x a) zero = true.
Proof.
  unfold num_geb.
  destruct x as [|[]|x], a as [|[]|a]; try discriminate; try reflexivity.
  intros Hx Ha. cbn [num_add]. unfold zero in *.
  apply num_leb_Q in Hx, Ha. apply num_leb_Q.
  rewrite dec_Q_add. rewrite dec_Q_zero in *.
  apply Qle_trans with (dec_Q x); [assumption|].
  rewrite <- (Qplus_0_r (dec_Q x)) at 1. now apply Qplus_le_r.
Qed.

Lemma add_mono (x y a : number) :
  num_geb x zero = true -> num_geb a zero = true ->
  num_leb x y = true -> num_leb (num_add x a) (num_add y a) = true.
Proof.
  unfold num_geb.
  destruct x as [|[]|x], y as [|[]|y], a as [|[]|a];
    try discriminate; try reflexivity.
  intros _ _ H. cbn [num_add]. apply num_leb_Q in H. apply num_leb_Q.
  rewrite !dec_Q_add. now apply Qplus_le_l.
Qed.

Lemma add_grows (y a : number) :
  num_geb y zero = true -> num_geb a zero = true ->
  num_leb y (num_add y a) = true.
Proof.
  unfold num_geb.
  destruct y as [|[]|y], a as [|[]|a]; try discriminate; try reflexivity.
  intros _ Ha. cbn [num_add]. unfold zero in *.
  apply num_leb_Q in Ha. apply num_leb_Q.
  rewrite dec_Q_add. rewrite dec_Q_zero in *.
  rewrite <- (Qplus_0_r (dec_Q y)) at 1. now apply Qplus_le_r.
Qed.

(** Summing a selection of amounts that are not negative gives no more
    than summing all of them. *)
Lemma sum_selection (f : Expense -> bool) (l : list Expense) (x y : number) :
  Forall (fun e => num_geb (Expense.amount e) zero = true) l ->
  num_geb x zero = true -> num_leb x y = true ->
  num_leb (fold_left num_add (map Expense.amount (filter f l)) x)
          (fold_left num_add (map Expense.amount l) y) = true.
Proof.
  intros Hl. revert x y.
  induction Hl as [|e l He Hl IH]; intros x y Hx Hxy; [exact Hxy|].
  assert (Hy : num_geb y zero = true)
    by (unfold num_geb in *; now apply num_leb_trans with x).
  cbn [filter map fold_left]. destruct (f e); cbn [map fold_left].
  - apply IH; [now apply add_nonneg | now apply add_mono].
  - apply IH; [assumption|].
    apply num_leb_trans with y; [assumption | now apply add_grows].
Qed.

Lemma filter_all {A : Type} (l : list A) : filter (fun _ => true) l = l.
Proof. induction l as [|x l IH]; cbn; now rewrite ?IH. Qed.

(** X11. When no amount is negative, the total under any filter is at
    most the total under the filter ["all"]. *)
Theorem total_filtered_le (expenses : list Expense) (m : jsstring) :
  Forall (fun e => num_geb (Expense.amount e) zero = true) expenses ->
  num_leb (total (filteredExpenses expenses m))
          (total (filteredExpenses expenses (str "all"))) = true.
Proof.
  intros H. rewrite !total_js_sum. unfold js_sum.
  change (filteredExpenses expenses (str "all")) with expenses.
  unfold filteredExpenses. destruct (str_eqb m (str "all")).
  - rewrite <- (filter_all expenses) at 1.
    now apply sum_selection.
  - now apply sum_selection.
Qed.

Lemma total_filtered_le_witness :
  num_leb
    (total (filteredExpenses [sample_food; sample_rent; sample_lunch]
              (str "2025-11")))
    (total (filteredExpenses [sample_food; sample_rent; sample_lunch]
              (str "all")))
  = true.
Proof. apply total_filtered_le. repeat constructor. Defined.

(** X12. When no amount is negative, the subtotal of each category of the
    ranking is at most the total of the records that were ranked. *)
Theorem subtotal_le_total (filtered : list Expense) (t : CategoryTotal) :
  Forall (fun e => num_geb (Expense.amount e) zero = true) filtered ->
  In t (categoryTotals filtered) ->
  num_leb (amt t) (total filtered) = true.
Proof.
  intros H Ht. rewrite (categoryTotals_subtotal _ _ Ht), total_js_sum.
  unfold js_sum, amounts_of. now apply sum_selection.
Qed.

Lemma subtotal_le_total_witness :
  num_leb (Fin (Dec 205 1))
          (total [sample_food; sample_rent; sample_lunch]) = true.
Proof.
  apply (subtotal_le_total [sample_food; sample_rent; sample_lunch]
           {| cat := str "Food"; amt := Fin (Dec 205 1) |}).
  - repeat constructor.
  - right. now left.
Defined.

(** ** The size of the ranking and its ties *)

Lemma Map_set_length (m : JSMap) (k : jsstring) (v : number) :
  (length (Map_set m k v) <= S (length m))%nat.
Proof.
  induction m as [|[k0 v0] m IH]; simpl; [lia|].
  destruct (str_eqb k0 k); simpl; lia.
Qed.

Lemma accumulate_length (l : list Expense) (m : JSMap) :
  (length (fold_left accumulate l m) <= length m + length l)%nat.
Proof.
  revert m; induction l as [|e l IH]; intros m; simpl; [lia|].
  specialize (IH (accumulate m e)).
  assert (H : (length (accumulate m e) <= S (length m))%nat)
    by (unfold accumulate; apply Map_set_length).
  lia.
Qed.

(** X13. The ranking never has more entries than there are filtered
    records, and it is empty exactly when there is no filtered record:
    the block of category cards is shown exactly when the table has a
    row. *)
Theorem categoryTotals_count (filtered : list Expense) :
  (length (categoryTotals filtered) <= length filtered)%nat
  /\ (categoryTotals filtered = [] <-> filtered = []).
Proof.
  pose proof (categoryTotals_cats filtered) as P.
  split.
  - apply Permutation_length in P. rewrite !length_map in P.
    rewrite <- P. apply (accumulate_length filtered []).
  - split.
    + intros E. rewrite E in P. destruct filtered as [|e l]; [reflexivity|].
      exfalso. apply (Permutation_in (Expense.category e)) in P; [exact P|].
      apply accumulate_keys_In. right. exists e. split; [now left|reflexivity].
    + intros ->. reflexivity.
Qed.

Section Stable.
Context {A : Type}.
Variable comparefn : A -> A -> number.
Variable p : A -> bool.
(** The comparator never puts one element of the class [p] behind
    another. *)
Hypothesis tie : forall x y, p x = true -> p y = true ->
                             sorts_after comparefn x y = false.


End Stable.







(** ** The rows of the table *)

Lemma sorts_after_by_date (a b : Expense) :
  sorts_after by_date a b = str_ltb (Expense.date a) (Expense.date b).
Proof.
  unfold sorts_after, by_date.
  destruct (str_ltb (Expense.date a) (Expense.date b)); reflexivity.
Qed.

Lemma str_geb_trans (a b c : jsstring) :
  str_ltb a b = false -> str_ltb b c = false -> str_ltb a c = false.
Proof.
  intros Hab Hbc. destruct (str_ltb a c) eqn:Hac; [|reflexivity].
  destruct (str_ltb b a) eqn:Hba.
  - rewrite (str_ltb_trans _ _ _ Hba Hac) in Hbc. discriminate.
  - assert (a = b) by now apply str_ltb_total. subst. congruence.
Qed.

(** X15. The table shows exactly the filtered records, each as often as
    it occurs among them, and no row has a date that is smaller than the
    date of a row below it.  (The order among rows of one date is the
    engine's; nothing is stated about it.) *)
Theorem rows_by_date (filtered : list Expense) :
  Permutation filtered (rows filtered)
  /\ StronglySorted
       (fun a b => str_ltb (Expense.date a) (Expense.date b) = false)
       (rows filtered).
Proof.
  split; [apply Array_sort_perm|].
  apply Sorted_StronglySorted.
  - intros a b c. apply str_geb_trans.
  - apply (Array_sort_sorted by_date (fun _ => True)).
    + intros x y _ _. now rewrite sorts_after_by_date.
    + intros x y _ _. rewrite sorts_after_by_date. apply str_ltb_asym.
    + apply Forall_forall. auto.
Qed.

(** ** What the storage gives back *)

(** X16. A save either leaves the storage exactly as it was (access
    denied, or the text is longer than the quota: the exception is
    swallowed) or leaves a text that a load reads back as the whole
    collection; nothing in between. *)
Theorem save_all_or_nothing (st : storage) (records : list Expense) :
  Forall (fun e => wf_number (Expense.amount e) = true) records ->
  save st records = st \/ load (save st records) = map to_json records.
Proof.
  intros Hwf. destruct st as [|quota slot]; [now left|].
  unfold save, setItem. destruct quota as [q|].
  - destruct (length (JSON_stringify (JArray (map to_json records))) <=? q)%nat;
      [right; now apply load_stored | now left].
  - right. now apply load_stored.
Qed.

Lemma save_all_or_nothing_witness :
  save (Store (Some 10%nat) (Some (str "[]"))) [sample_food]
  = Store (Some 10%nat) (Some (str "[]"))
  \/ load (save (Store (Some 10%nat) (Some (str "[]"))) [sample_food])
     = map to_json [sample_food].
Proof. apply save_all_or_nothing. repeat constructor. Defined.

(** X17. Loading after an accepted save gives back every record with its
    id, date, category and note as they were; the amount comes back as it
    was when it is a finite number and as [null] when it is [NaN] or an
    infinity. *)
Theorem load_save_stored (quota : option nat) (slot : option jsstring)
    (records : list Expense) :
  Forall (fun e => storable (Expense.amount e) = true) records ->
  match quota with
  | Some q => (length (JSON_stringify (JArray (map to_json records))) <= q)%nat
  | None => True
  end ->
  load (save (Store quota slot) records) = map stored records.
Proof.
  intros Hs Hq. rewrite (save_accepted quota slot records Hq).
  now apply load_written.
Qed.

Lemma load_save_stored_witness :
  load (save (Store None None)
          [Expense.mk (str "1-abc") (str "2025-11-01") (str "Food")
                      (Infinity false) None])
  = [JObject [ (str "id", JString (str "1-abc"));
               (str "date", JString (str "2025-11-01"));
               (str "category", JString (str "Food"));
               (str "amount", JNull) ]].
Proof.
  apply (load_save_stored None None
           [Expense.mk (str "1-abc") (str "2025-11-01") (str "Food")
                       (Infinity false) None]).
  - repeat constructor.
  - exact I.
Defined.

Lemma stored_amount_finite (d : decimal) :
  0 < mant d -> is_finite (parseFloat (toFixed (Fin d) 2)) = true.
Proof.
  intros Hx.
  destruct (Z.lt_ge_cases (mant d) (10 ^ 21 * pow10 (scale d))) as [Hlt|Hge].
  - now rewrite (parseFloat_denotes _ _ _
                   (toFixed_denotes d 1 (Z.lt_le_incl _ _ Hx) Hlt)).
  - unfold toFixed.
    replace (mant d <? 0) with false by (symmetry; apply Z.ltb_ge; lia).
    cbn [app mant scale]. rewrite Z.abs_eq by lia.
    replace (10 ^ 21 * pow10 (scale d) <=? mant d) with true
      by (symmetry; apply Z.leb_le; lia).
    now rewrite parseFloat_toString.
Qed.

Lemma addExpense_wf (now : Z) (random36 : jsstring) (s : Home.state) :
  Forall (fun e => wf_number (Expense.amount e) = true) (Home.expenses s) ->
  is_finite (parseFloat (Home.amount s)) = true ->
  Forall (fun e => wf_number (Expense.amount e) = true)
         (Home.expenses (addExpense now random36 s)).
Proof.
  intros Hwf Hfin. unfold addExpense.
  destruct (Number_isNaN (parseFloat (Home.amount s))
            || num_leb (parseFloat (Home.amount s)) zero) eqn:E;
    [exact Hwf|].
  destruct (negb (truthy (Home.date s))); [exact Hwf|].
  cbn [Home.expenses]. constructor; [|exact Hwf].
  apply newExpense_wf. unfold newExpense. cbn [Expense.amount].
  destruct (parseFloat (Home.amount s)) as [| |d]; try discriminate.
  apply stored_amount_finite. apply positive_Fin.
  apply orb_false_elim in E as [_ E].
  unfold num_gtb, num_ltb. unfold num_leb in E. unfold zero in *.
  cbn [num_compare] in *. rewrite (dec_compare_antisym d dec_zero).
  destruct (dec_compare d dec_zero); try discriminate; reflexivity.
Qed.

(** X18. Adding with an amount text that parses to a finite number keeps
    the collection one that the storage gives back unchanged: if every
    amount was a finite number before, every amount is one after, and a
    load after a save returns exactly the records of the collection. *)
Theorem addExpense_storable (now : Z) (random36 : jsstring) (s : Home.state)
    (slot : option jsstring) :
  Forall (fun e => wf_number (Expense.amount e) = true) (Home.expenses s) ->
  is_finite (parseFloat (Home.amount s)) = true ->
  Forall (fun e => wf_number (Expense.amount e) = true)
         (Home.expenses (addExpense now random36 s))
  /\ as_Expenses
       (load (save (Store None slot)
                (Home.expenses (addExpense now random36 s))))
     = Some (Home.expenses (addExpense now random36 s)).
Proof.
  intros Hwf Hfin.
  pose proof (addExpense_wf now random36 s Hwf Hfin) as H.
  split; [exact H|].
  rewrite (save_accepted None slot _ I), (load_stored None _ H).
  apply as_Expenses_to_json.
Qed.

Lemma addExpense_storable_witness :
  as_Expenses
    (load (save (Store None None)
             (Home.expenses
                (addExpense 1762000000000 (str "0.4fzyo82mvyr")
                   (form [sample_rent] "12.50" "Food" "2025-11-01" "")))))
  = Some (Home.expenses
            (addExpense 1762000000000 (str "0.4fzyo82mvyr")
               (form [sample_rent] "12.50" "Food" "2025-11-01" ""))).
Proof.
  apply (addExpense_storable 1762000000000 (str "0.4fzyo82mvyr")
           (form [sample_rent] "12.50" "Food" "2025-11-01" "") None).
  - repeat constructor.
  - reflexivity.
Defined.

(** X19. An amount text that [parseFloat] reads as [Infinity] passes the
    validation: the record is added with the amount [Infinity].  The
    storage does not keep that amount: after a save and a load the record
    is first in the array with [null] for its amount, and the array is no
    longer one of records with a numeric amount. *)
Theorem addExpense_Infinity (now : Z) (random36 : jsstring) (s : Home.state)
    (slot : option jsstring) :
  parseFloat (Home.amount s) = Infinity false ->
  Home.date s <> [] ->
  Forall (fun e => wf_number (Expense.amount e) = true) (Home.expenses s) ->
  exists e,
    Home.expenses (addExpense now random36 s) = e :: Home.expenses s
    /\ Expense.amount e = Infinity false
    /\ exists members,
         load (save (Store None slot)
                 (Home.expenses (addExpense now random36 s)))
         = JObject members :: map to_json (Home.expenses s)
         /\ obj_get members (str "amount") = Some JNull
         /\ as_Expenses
              (load (save (Store None slot)
                      (Home.expenses (addExpense now random36 s))))
            = None.
Proof.
  intros Hinf Hdate Hwf.
  assert (Hpos : num_gtb (parseFloat (Home.amount s)) zero = true)
    by now rewrite Hinf.
  rewrite (addExpense_accepts now random36 s Hpos Hdate). cbn [Home.expenses].
  set (e := newExpense now random36 (parseFloat (Home.amount s)) s).
  assert (Ha : Expense.amount e = Infinity false).
  { unfold e, newExpense. cbn [Expense.amount]. now rewrite Hinf. }
  exists e. split; [reflexivity|]. split; [exact Ha|].
  assert (L : load (save (Store None slot) (e :: Home.expenses s))
              = stored e :: map to_json (Home.expenses s)).
  { rewrite (save_accepted None slot (e :: Home.expenses s) I).
    rewrite (load_written None (e :: Home.expenses s)).
    - cbn [map]. f_equal. apply map_ext_in. intros x Hx.
      unfold stored, to_json.
      pose proof (proj1 (Forall_forall _ _) Hwf x Hx) as W. cbn beta in W.
      destruct (Expense.amount x); try discriminate. reflexivity.
    - constructor; [now rewrite Ha|].
      eapply Forall_impl; [|exact Hwf]. intros x W. cbn beta in W.
      destruct (Expense.amount x); try discriminate. exact W. }
  rewrite L. unfold stored. rewrite Ha. cbn [is_finite].
  eexists. split; [reflexivity|]. split; [reflexivity|].
  cbn [as_Expenses as_Expense]. reflexivity.
Qed.

Lemma addExpense_Infinity_witness :
  exists e,
    Home.expenses
      (addExpense 1762000000000 (str "0.4fzyo82mvyr")
         (form [sample_rent] "Infinity" "Food" "2025-11-01" ""))
    = e :: [sample_rent]
    /\ Expense.amount e = Infinity false.
Proof.
  destruct (addExpense_Infinity 1762000000000 (str "0.4fzyo82mvyr")
              (form [sample_rent] "Infinity" "Food" "2025-11-01" "") None)
    as [e [E [A _]]].
  - reflexivity.
  - discriminate.
  - repeat constructor.
  - exists e. split; [exact E | exact A].
Defined.

(** ** Rounding a stored amount again *)

(** Rounding a number of hundredths to hundredths changes nothing. *)
Lemma round_scaled_hundredths (n : Z) :
  round_scaled (normalize n 2) 2 = n.
Proof.
  unfold round_scaled. pose proof (normalize_value n 2) as V.
  set (a := normalize n 2) in *. pose proof (pow10_pos (scale a)) as P.
  replace (2 * mant a * pow10 2 + pow10 (scale a))
    with (pow10 (scale a) + n * (2 * pow10 (scale a))) by (rewrite <- Z.mul_assoc, V; ring).
  rewrite Z.div_add by lia. rewrite Z.div_small by lia. reflexivity.
Qed.

Lemma hundredths_range (d : decimal) :
  0 < mant d ->
  mant d < 10 ^ 21 * pow10 (scale d) \/ scale d = 0%nat ->
  mant (normalize (round_scaled d 2) 2)
  < 10 ^ 21 * pow10 (scale (normalize (round_scaled d 2) 2))
  \/ scale (normalize (round_scaled d 2) 2) = 0%nat.
Proof.
  intros Hm [Hlt|Hs].
  - pose proof (round_scaled_nearest d 2) as B.
    pose proof (pow10_pos (scale d)) as P.
    change (pow10 2) with 100 in B.
    set (n := round_scaled d 2) in *.
    assert (Hn : n <= 10 ^ 23) by nia.
    destruct (Z.eq_dec n (10 ^ 23)) as [E|E].
    + right. rewrite E. reflexivity.
    + left. pose proof (normalize_value n 2) as V.
      change (pow10 2) with 100 in V.
      set (a := normalize n 2) in *.
      pose proof (pow10_pos (scale a)) as Pa. nia.
  - right. unfold round_scaled. rewrite Hs.
    change (pow10 0) with 1. change (pow10 2) with 100.
    replace (2 * mant d * 100 + 1) with (1 + (mant d * 100) * 2) by ring.
    rewrite Z.mul_1_r, Z.div_add by lia. change (1 / 2) with 0.
    rewrite Z.add_0_l.
    rewrite (normalize_eq (mant d * 100) (mant d) 2 0);
      [reflexivity | change (pow10 0) with 1; change (pow10 2) with 100; ring].
Qed.

(** X20. The amount of a new record is a fixed point of the rounding:
    a record built from the amount that an earlier record has stored
    stores that same amount.  (Stated for parsed amounts below [10^21]
    or integral.) *)
Theorem newExpense_amount_stable (now now' : Z) (r r' : jsstring)
    (s s' : Home.state) (d : decimal) :
  0 < mant d ->
  mant d < 10 ^ 21 * pow10 (scale d) \/ scale d = 0%nat ->
  Expense.amount
    (newExpense now' r' (Expense.amount (newExpense now r (Fin d) s)) s')
  = Expense.amount (newExpense now r (Fin d) s).
Proof.
  intros Hm Hr. unfold newExpense. cbn [Expense.amount].
  rewrite (stored_amount d Hm Hr).
  pose proof (round_scaled_nonneg d 2 (Z.lt_le_incl _ _ Hm)) as Hn.
  destruct (Z.eq_dec (round_scaled d 2) 0) as [E|E].
  - rewrite E. reflexivity.
  - pose proof (normalize_sign (round_scaled d 2) 2) as Hs.
    assert (Hpos : 0 < mant (normalize (round_scaled d 2) 2)).
    { apply (proj1 (Z.compare_lt_iff _ _)). rewrite Hs.
      apply (proj2 (Z.compare_lt_iff _ _)). lia. }
    rewrite (stored_amount _ Hpos (hundredths_range d Hm Hr)).
    now rewrite round_scaled_hundredths.
Qed.

Lemma newExpense_amount_stable_witness :
  Expense.amount
    (newExpense 1762000000001 (str "0.4fzyo82mvyr")
       (Expense.amount
          (newExpense 1762000000000 (str "0.4fzyo82mvyr") (Fin (Dec 12345 3))
             (form [] "12.345" "Food" "2025-11-01" "")))
       (form [] "" "Food" "2025-11-01" ""))
  = Fin (Dec 1235 2).
Proof.
  rewrite (newExpense_amount_stable _ _ _ _ _ _ (Dec 12345 3));
    [reflexivity | reflexivity | left; reflexivity].
Defined.
